(** * Business-name inference from OCR text: a verified model

    A shallow embedding of the listing-from-image code base:
    - [lib/enhanced-vision.ts]: line preprocessing, the three candidate
      generators, the scorer, the deduplicator, the ranking, the confidence
      estimator and the four regular-expression field extractors;
    - [lib/places.ts]: the places search with its details enrichment;
    - [components/BusinessListingGenerator.tsx]: the confirmation gate.

    JavaScript strings are modelled as lists of 8-bit code units (the
    Latin-1 range, on which [toLowerCase], [trim] and the character classes
    used by the code are given exactly); JavaScript numbers that only ever
    hold integers are [Z]; the confidence score, which is a sum of decimal
    fractions, is an IEEE binary64 value ([PrimFloat]). *)

From Stdlib Require Import String.
From Stdlib Require Import List ZArith Bool Ascii Lia Arith PeanoNat.
From Stdlib Require Import Permutation Sorted.
From Stdlib Require Import QArith Qabs Qminmax.
From Stdlib Require Import Floats.PrimFloat Floats.SpecFloat Floats.FloatOps.
Import Corelib.Init.Datatypes.
Import ListNotations.
Close Scope Q_scope.
Close Scope Z_scope.

Set Implicit Arguments.

(** Decimal literals such as [0.1] denote the nearest binary64 value, as
    they do in the source. *)
Set Warnings "-inexact-float".

(* ================================================================= *)
(** ** JavaScript string and array primitives *)

Module Js.

Definition text := list ascii.

(** String literals of the source are written [str "..."]. *)
Definition str (s : String.string) : text := String.list_ascii_of_string s.
Arguments str s%_string.

Definition code (c : ascii) : N := N_of_ascii c.

Definition in_range (lo hi : N) (c : ascii) : bool :=
  (lo <=? code c)%N && (code c <=? hi)%N.

Definition is_upper (c : ascii) : bool := in_range 65 90 c.
Definition is_lower (c : ascii) : bool := in_range 97 122 c.
Definition is_digit (c : ascii) : bool := in_range 48 57 c.
Definition is_letter (c : ascii) : bool := is_upper c || is_lower c.
Definition is_alnum (c : ascii) : bool := is_letter c || is_digit c.

(** [\s] and the white space removed by [trim]: TAB, LF, VT, FF, CR, SP and
    NBSP. *)
Definition is_space (c : ascii) : bool :=
  in_range 9 13 c || (code c =? 32)%N || (code c =? 160)%N.

Definition is_char (a : ascii) (c : ascii) : bool := Ascii.eqb a c.

(** [String.prototype.toLowerCase], one code unit at a time: A-Z and the
    Latin-1 capitals (all of 0xC0-0xDE but the multiplication sign). *)
Definition lower_char (c : ascii) : ascii :=
  if is_upper c || (in_range 192 222 c && negb (code c =? 215)%N)
  then ascii_of_N (code c + 32) else c.

Definition toLowerCase (s : text) : text := map lower_char s.

Fixpoint trimStart (s : text) : text :=
  match s with
  | [] => []
  | c :: t => if is_space c then trimStart t else s
  end.

Definition trimEnd (s : text) : text := rev (trimStart (rev s)).

Definition trim (s : text) : text := trimEnd (trimStart s).

Definition text_eqb (a b : text) : bool :=
  if list_eq_dec ascii_dec a b then true else false.

(** [s.startsWith(p)] *)
Fixpoint startsWith (s p : text) : bool :=
  match p, s with
  | [], _ => true
  | _ :: _, [] => false
  | a :: p', b :: s' => Ascii.eqb a b && startsWith s' p'
  end.

(** [s.includes(sub)] *)
Fixpoint includes (s sub : text) : bool :=
  startsWith s sub ||
  match s with
  | [] => false
  | _ :: t => includes t sub
  end.

(** [s.split(sep)] for a one-character separator: always at least one
    piece. *)
Fixpoint split (sep : ascii) (s : text) : list text :=
  match s with
  | [] => [[]]
  | c :: t =>
      if Ascii.eqb c sep then [] :: split sep t
      else match split sep t with
           | w :: ws => (c :: w) :: ws
           | [] => [[c]]
           end
  end.

(** [pieces.join(sep)] *)
Fixpoint join (sep : text) (pieces : list text) : text :=
  match pieces with
  | [] => []
  | [x] => x
  | x :: rest => x ++ sep ++ join sep rest
  end.

(** [arr.slice(i, j)] for [0 <= i]. *)
Definition slice {A} (i j : nat) (arr : list A) : list A :=
  firstn (j - i) (skipn i arr).

(** [arr.indexOf(x)]: the first index holding [x], or [-1]. *)
Fixpoint indexOf_from (arr : list text) (x : text) (i : Z) : Z :=
  match arr with
  | [] => (-1)%Z
  | y :: rest => if text_eqb y x then i else indexOf_from rest x (i + 1)%Z
  end.

Definition indexOf (arr : list text) (x : text) : Z := indexOf_from arr x 0%Z.

(** [s.split(/\s+/)]: the pieces between maximal runs of white space; a
    leading or trailing run leaves an empty first or last piece.  [cur] is
    the piece being read, reversed; [in_ws] tells whether the previous
    character was white space. *)
Fixpoint split_ws_from (s : text) (cur : text) (in_ws : bool) : list text :=
  match s with
  | [] => [rev cur]
  | c :: t =>
      if is_space c
      then (if in_ws then split_ws_from t cur true
            else rev cur :: split_ws_from t [] true)
      else split_ws_from t (c :: cur) false
  end.

Definition split_ws (s : text) : list text := split_ws_from s [] false.

(** The declarative reading of [includes]. *)
Definition substring (sub s : text) : Prop :=
  exists pre post, s = pre ++ sub ++ post.

End Js.

Import Js.

(* ================================================================= *)
(** ** Regular expressions with JavaScript's backtracking order *)

Module Regex.

(** The fragment of the regular-expression syntax the code uses.  Every
    quantifier of the source but [?] is applied to a character class. *)
Inductive regex : Type :=
| Eps
| Cls (p : ascii -> bool)
| Rep (p : ascii -> bool) (lo : nat) (hi : option nat)
| Seq (r1 r2 : regex)
| Alt (r1 r2 : regex)
| Opt (r : regex).

(** The words of a regular expression. *)
Fixpoint lang (r : regex) (w : text) : Prop :=
  match r with
  | Eps => w = []
  | Cls p => exists c, w = [c] /\ p c = true
  | Rep p lo hi =>
      Forall (fun c => p c = true) w /\ lo <= length w /\
      match hi with Some h => length w <= h | None => True end
  | Seq r1 r2 => exists u v, w = u ++ v /\ lang r1 u /\ lang r2 v
  | Alt r1 r2 => lang r1 w \/ lang r2 w
  | Opt r1 => w = [] \/ lang r1 w
  end.

(** Whether the empty word may be a word of the expression. *)
Fixpoint nullable (r : regex) : bool :=
  match r with
  | Eps => true
  | Cls _ => false
  | Rep _ lo _ => lo =? 0
  | Seq r1 r2 => nullable r1 && nullable r2
  | Alt r1 r2 => nullable r1 || nullable r2
  | Opt _ => true
  end.

(** Length of the longest prefix of [s] made of characters of [p]. *)
Fixpoint run (p : ascii -> bool) (s : text) : nat :=
  match s with
  | [] => 0
  | c :: t => if p c then S (run p t) else 0
  end.

Definition cap (hi : option nat) (n : nat) : nat :=
  match hi with Some h => Nat.min h n | None => n end.

(** [ends r s]: what is left of [s] after a match of [r] at its start, one
    entry per way of matching, in the order in which a backtracking matcher
    tries them (greedy quantifiers: longest first; alternatives: left to
    right).  An optional group never keeps an empty iteration. *)
Fixpoint ends (r : regex) (s : text) : list text :=
  match r with
  | Eps => [s]
  | Cls p =>
      match s with
      | c :: t => if p c then [t] else []
      | [] => []
      end
  | Rep p lo hi =>
      let k := cap hi (run p s) in
      map (fun n => skipn n s) (rev (seq lo (S k - lo)))
  | Seq r1 r2 => flat_map (ends r2) (ends r1 s)
  | Alt r1 r2 => ends r1 s ++ ends r2 s
  | Opt r1 =>
      filter (fun e => negb (length e =? length s)) (ends r1 s) ++ [s]
  end.

(** A pattern is a regular expression with its [^] and [$] anchors. *)
Record pattern : Type := Pattern { bol : bool; body : regex; eol : bool }.

(** Length of the match of [p] that starts at the beginning of [s]: the
    first way of matching the body after which the [$] anchor holds. *)
Definition match_here (p : pattern) (s : text) : option nat :=
  match filter (fun e => negb (eol p) || (length e =? 0)) (ends (body p) s) with
  | e :: _ => Some (length s - length e)
  | [] => None
  end.

Fixpoint search_from (p : pattern) (s : text) : bool :=
  match match_here p s with
  | Some _ => true
  | None => match s with
            | [] => false
            | _ :: t => search_from p t
            end
  end.

(** [re.test(s)] for a pattern without the [g] flag. *)
Definition test (p : pattern) (s : text) : bool :=
  if bol p
  then match match_here p s with Some _ => true | None => false end
  else search_from p s.

(** [s.match(re)] for an unanchored [re] with the [g] flag: scan from
    [lastIndex = 0]; every match found is recorded and the scan resumes at
    its end, or one character further when the match is empty.  [skip]
    counts the characters still covered by the previous match. *)
Fixpoint matchAll_from (r : regex) (s : text) (skip : nat) : list text :=
  match skip with
  | S k =>
      match s with
      | [] => []
      | _ :: t => matchAll_from r t k
      end
  | O =>
      match match_here (Pattern false r false) s with
      | Some n =>
          firstn n s ::
          match s with
          | [] => []
          | _ :: t => matchAll_from r t (Nat.pred n)
          end
      | None =>
          match s with
          | [] => []
          | _ :: t => matchAll_from r t 0
          end
      end
  end.

(** [s.match(re) || []] *)
Definition matchAll (r : regex) (s : text) : list text := matchAll_from r s 0.

(** Building blocks for writing the source's patterns. *)
Definition chr (a : ascii) : regex := Cls (is_char a).

(** A literal under the [i] flag. *)
Definition chr_i (a : ascii) : regex :=
  Cls (fun c => Ascii.eqb (lower_char c) (lower_char a)).

Fixpoint seqs (rs : list regex) : regex :=
  match rs with
  | [] => Eps
  | [r] => r
  | r :: rest => Seq r (seqs rest)
  end.

Fixpoint alts (rs : list regex) : regex :=
  match rs with
  | [] => Cls (fun _ => false)
  | [r] => r
  | r :: rest => Alt r (alts rest)
  end.

Definition lit (s : text) : regex := seqs (map chr s).
Definition lit_i (s : text) : regex := seqs (map chr_i s).

Definition plus (p : ascii -> bool) : regex := Rep p 1 None.

(** Occurrences of a regular expression in a text. *)
Definition matches_at (r : regex) (s : text) : Prop :=
  exists w rest, s = w ++ rest /\ lang r w.

Definition occurs (r : regex) (s : text) : Prop :=
  exists pre w post, s = pre ++ w ++ post /\ lang r w.

(** What a global scan must return: the text is cut into gaps and matches,
    in order; every match is a non-empty word of [r]; no match starts inside
    a gap; nothing occurs after the last match. *)
Inductive scan : regex -> text -> list text -> Prop :=
| scan_done r s :
    ~ occurs r s -> scan r s []
| scan_hit r gap m rest ms :
    (forall g1 g2, gap = g1 ++ g2 -> g2 <> [] ->
                   ~ matches_at r (g2 ++ m ++ rest)) ->
    lang r m -> m <> [] ->
    scan r rest ms ->
    scan r (gap ++ m ++ rest) (m :: ms).

End Regex.

Import Regex.

(* ================================================================= *)
(** ** lib/enhanced-vision.ts *)

Module EnhancedVision.

(** *** Line preprocessor *)

Definition digitsOnly : pattern := Pattern true (plus is_digit) true.
Definition anyLetter : pattern := Pattern false (Cls is_letter) false.

Definition commonWords : list text :=
  [str "our"; str "menu"; str "hours"; str "open"; str "closed";
   str "welcome"; str "visit"; str "call"; str "phone"; str "email"].

Definition when {A} (b : bool) (x : A) : list A := if b then [x] else [].

(** The reasons for which [preprocessLines] filters a (trimmed) line. *)
Definition filterReasons (line : text) : list text :=
  let lower := toLowerCase line in
  when (length line <=? 1) (str "too short") ++
  when (existsb (text_eqb lower) commonWords) (str "common word") ++
  when (startsWith lower (str "www")) (str "website") ++
  when (startsWith lower (str "http")) (str "url") ++
  when (includes lower (str "@")) (str "email") ++
  when (test digitsOnly line) (str "just numbers") ++
  when (text_eqb line (str "&")) (str "just ampersand") ++
  when (text_eqb line (str "-")) (str "just dash") ++
  when (negb (test anyLetter line)) (str "no letters").

Definition preprocessLines (lines : list text) : list text :=
  filter (fun line => length (filterReasons line) =? 0) (map trim lines).

(** *** Candidate generators *)

Definition businessIndicators : list (list text) :=
  [[str "coffee"]; [str "food"; str "park"]; [str "coffee"; str "shop"];
   [str "restaurant"]; [str "market"]; [str "center"]; [str "plaza"];
   [str "cafe"]; [str "grill"]; [str "bar"]].

(** The inner loop over the indicators, left at the first one that holds. *)
Fixpoint contextMatch (indicators : list (list text)) (combined : text)
  : list text :=
  match indicators with
  | [] => []
  | words :: rest =>
      let hasAllWords := forallb (includes (toLowerCase combined)) words in
      if hasAllWords && (length combined <? 50) then [combined]
      else contextMatch rest combined
  end.

Definition extractWithBusinessContext (lines : list text) : list text :=
  flat_map (fun i =>
    flat_map (fun j =>
      contextMatch businessIndicators (join (str " ") (slice i j lines)))
      (seq (i + 1) (Nat.min (i + 4) (length lines) - i)))
    (seq 0 (length lines)).

(** The candidates the positional generator pushes for start index [i].
    The guards [i < lines.length - 1] and [i < lines.length - 2] are taken
    on natural numbers: for [i >= 0] the truncated subtraction decides them
    as the source does. *)
Definition positionalAt (lines : list text) (i : nat) : list text :=
  let line := nth i lines [] in
  when ((4 <=? length line) && (length line <=? 15)) line ++
  (if i <? length lines - 1
   then let combined := nth i lines [] ++ str " " ++ nth (i + 1) lines [] in
        when (length combined <=? 30) combined
   else []) ++
  (if i <? length lines - 2
   then let combined := nth i lines [] ++ str " " ++ nth (i + 1) lines []
                          ++ str " " ++ nth (i + 2) lines [] in
        when (length combined <=? 40) combined
   else []).

Definition extractWithPositionalWeighting (lines : list text) : list text :=
  flat_map (positionalAt lines) (seq 0 (Nat.min (length lines) 5)).

Definition properWord : regex := Seq (Cls is_upper) (plus is_lower).
Definition capsWord : regex := plus is_upper.

Definition patterns : list pattern :=
  [Pattern true (seqs [properWord; chr " "; properWord]) true;
   Pattern true (seqs [capsWord; chr " "; capsWord]) true;
   Pattern true (seqs [properWord; chr " "; properWord; chr " "; properWord])
           true;
   Pattern true (seqs [capsWord; chr " "; capsWord; chr " "; capsWord]) true].

Fixpoint patternMatch (ps : list pattern) (combined : text) : list text :=
  match ps with
  | [] => []
  | p :: rest =>
      if test p combined && (length combined <=? 35) then [combined]
      else patternMatch rest combined
  end.

Definition extractWithPatternMatching (lines : list text) : list text :=
  flat_map (fun i =>
    flat_map (fun j => patternMatch patterns (join (str " ") (slice i j lines)))
      (seq (i + 1) (Nat.min (i + 3) (length lines) - i)))
    (seq 0 (length lines - 1)).

(** *** Candidate scorer *)

Local Open Scope Z_scope.

Definition capitalStart : pattern := Pattern true (Cls is_upper) false.

Definition allCaps : pattern :=
  Pattern true
    (plus (fun c => is_upper c || is_space c || existsb (is_char c) (str "&-'.")))
    true.

Definition businessKeywords : list (text * Z) :=
  [(str "coffee", 7); (str "food park", 8); (str "coffee shop", 7);
   (str "restaurant", 6); (str "market", 5); (str "center", 4);
   (str "plaza", 4); (str "cafe", 5); (str "grill", 5); (str "bar", 4)].

Fixpoint keywordPoints (keywords : list (text * Z)) (lowerName : text) : Z :=
  match keywords with
  | [] => 0
  | (word, points) :: rest =>
      if includes lowerName word then points else keywordPoints rest lowerName
  end.

Definition positionScore (position : Z) : Z := Z.max 0 (10 - position).

Definition scoreBusinessName (name : text) (position : Z) : Z :=
  let len := Z.of_nat (length name) in
  let words := Z.of_nat (length (split " " name)) in
  let score := positionScore position in
  let lengthScore :=
    if words =? 2 then 5
    else if words =? 3 then 4
    else if (words =? 1) && (4 <? len) then 3
    else 0 in
  let score := score + lengthScore in
  let formatScore :=
    (if test capitalStart name then 2 else 0)
    + (if test allCaps name then 3 else 0) in
  let score := score + formatScore in
  let score := score + keywordPoints businessKeywords (toLowerCase name) in
  let completenessScore := if (8 <=? len) && (len <=? 25) then 3 else 0 in
  let score := score + completenessScore in
  let score := if len <? 4 then score - 3 else score in
  let score := if 40 <? len then score - 5 else score in
  Z.max 0 score.

Local Close Scope Z_scope.

(** *** Candidates, deduplication and ranking *)

Inductive Strategy : Type := context | positional | pattern_.

Record Candidate : Type :=
  { name : text; strategy : Strategy; score : Z }.

(** The test of [removeSimilarCandidates]. *)
Definition isContained (existing candidate : Candidate) : bool :=
  let existingText := toLowerCase (name existing) in
  let candidateText := toLowerCase (name candidate) in
  includes existingText candidateText
  || includes candidateText existingText
  || text_eqb existingText candidateText.

(** The loop of [removeSimilarCandidates], from a given [unique]. *)
Fixpoint removeSimilar_from (unique candidates : list Candidate)
  : list Candidate :=
  match candidates with
  | [] => unique
  | candidate :: rest =>
      let isDuplicate :=
        existsb (fun existing => isContained existing candidate) unique in
      if isDuplicate then removeSimilar_from unique rest
      else removeSimilar_from (unique ++ [candidate]) rest
  end.

Definition removeSimilarCandidates (candidates : list Candidate)
  : list Candidate :=
  removeSimilar_from [] candidates.

(** The comparator [(a, b) => b.score - a.score]. *)
Definition byScoreDesc (a b : Candidate) : Z := (score b - score a)%Z.

(** [Array.prototype.sort] is stable; with a consistent comparator its
    result is the one a stable insertion sort computes. *)
Fixpoint insertBy (cmp : Candidate -> Candidate -> Z) (x : Candidate)
  (sorted : list Candidate) : list Candidate :=
  match sorted with
  | [] => [x]
  | y :: rest =>
      if (cmp x y <=? 0)%Z then x :: y :: rest
      else y :: insertBy cmp x rest
  end.

Fixpoint sortBy (cmp : Candidate -> Candidate -> Z) (l : list Candidate)
  : list Candidate :=
  match l with
  | [] => []
  | x :: rest => insertBy cmp x (sortBy cmp rest)
  end.

(** *** The orchestrator, stage by stage *)

Definition textLines (fullText : text) : list text :=
  filter (fun line => 0 <? length (trim line)) (split "010" fullText).

Definition cleanedLinesOf (fullText : text) : list text :=
  preprocessLines (textLines fullText).

Definition generate (cleanedLines : list text) : list Candidate :=
  map (fun n => {| name := n; strategy := context; score := 0 |})
      (extractWithBusinessContext cleanedLines)
  ++ map (fun n => {| name := n; strategy := positional; score := 0 |})
         (extractWithPositionalWeighting cleanedLines)
  ++ map (fun n => {| name := n; strategy := pattern_; score := 0 |})
         (extractWithPatternMatching cleanedLines).

(** [name.split(' ')[0]] *)
Definition firstWord (n : text) : text := hd [] (split " " n).

(** The position handed to the scorer. *)
Definition firstWordIndex (cleanedLines : list text) (n : text) : Z :=
  indexOf cleanedLines (firstWord n).

Definition nameScore (cleanedLines : list text) (n : text) : Z :=
  scoreBusinessName n (firstWordIndex cleanedLines n).

Definition scoreAll (cleanedLines : list text) (candidates : list Candidate)
  : list Candidate :=
  map (fun c => {| name := name c; strategy := strategy c;
                   score := nameScore cleanedLines (name c) |})
      candidates.

Definition scoredCandidates (fullText : text) : list Candidate :=
  scoreAll (cleanedLinesOf fullText) (generate (cleanedLinesOf fullText)).

Definition uniqueCandidates (fullText : text) : list Candidate :=
  removeSimilarCandidates (scoredCandidates fullText).

Definition extractBusinessNamesWithContext (fullText : text) : list text :=
  map name (firstn 3 (sortBy byScoreDesc (uniqueCandidates fullText))).

(** *** Confidence estimator *)

(** An OCR annotation; only its text is read by the extraction. *)
Record Detection : Type := { description : option text }.

Inductive Level : Type := High | Medium | Low.

Record Confidence : Type :=
  { businessName : Level; address : Level; phone : Level }.

Local Open Scope float_scope.

(** [Math.min] on two numbers. *)
Definition Math_min (a b : float) : float := if b <? a then b else a.

Definition getLevel (score : float) : Level :=
  if 0.7 <? score then High
  else if 0.5 <? score then Medium
  else Low.

(** [detections[0]?.description || ''] *)
Definition fullTextOf (detections : list Detection) : text :=
  match detections with
  | d :: _ => match description d with Some t => t | None => [] end
  | [] => []
  end.

Definition wordsOf (fullText : text) : list text :=
  filter (fun w => (0 <? length w)%nat) (split_ws fullText).

(** [finalConfidence] of [calculateSmartConfidence]. *)
Definition finalConfidence (detections : list Detection)
  (businessNames : list text) : float :=
  let confidence := 0.5 in
  let confidence :=
    if (5 <? length detections)%nat then confidence + 0.1 else confidence in
  let confidence :=
    if (10 <? length detections)%nat then confidence + 0.1 else confidence in
  let confidence :=
    if (0 <? length businessNames)%nat then confidence + 0.2 else confidence in
  let confidence :=
    if (1 <? length businessNames)%nat then confidence + 0.1 else confidence in
  let words := wordsOf (fullTextOf detections) in
  let confidence :=
    if (5 <=? length words)%nat then confidence + 0.1 else confidence in
  Math_min 0.95 confidence.

Definition calculateSmartConfidence (detections : list Detection)
  (businessNames : list text) : Confidence :=
  let finalConfidence := finalConfidence detections businessNames in
  {| businessName := getLevel finalConfidence;
     address := getLevel (finalConfidence * 0.8);
     phone := getLevel (finalConfidence * 0.7) |}.

Local Close Scope float_scope.

(** *** Field extractors *)

Definition one_of (chars : text) (c : ascii) : bool := existsb (is_char c) chars.

Definition streetSuffixes : list text :=
  [str "Street"; str "St"; str "Avenue"; str "Ave"; str "Road"; str "Rd";
   str "Boulevard"; str "Blvd"; str "Lane"; str "Ln"; str "Drive"; str "Dr";
   str "Way"; str "Court"; str "Ct"].

Definition addressRegex : regex :=
  seqs [plus is_digit; plus is_space;
        plus (fun c => is_letter c || is_space c);
        alts (map lit_i streetSuffixes)].

Definition phoneSep (c : ascii) : bool := one_of (str "-.") c || is_space c.

Definition phoneRegex : regex :=
  seqs [Opt (seqs [Opt (chr "+"); chr "1"; Opt (Cls phoneSep)]);
        Opt (chr "("); Rep is_digit 3 (Some 3); Opt (chr ")");
        Opt (Cls phoneSep); Rep is_digit 3 (Some 3);
        Opt (Cls phoneSep); Rep is_digit 4 (Some 4)].

Definition websiteRegex : regex :=
  seqs [Opt (seqs [lit (str "http"); Opt (chr "s"); lit (str "://")]);
        Opt (lit (str "www."));
        Cls is_alnum;
        Rep (fun c => is_alnum c || is_char "-" c) 1 (Some 61);
        Cls is_alnum;
        chr ".";
        Rep is_letter 2 None].

Definition emailRegex : regex :=
  seqs [plus (fun c => is_alnum c || one_of (str "._%+-") c);
        chr "@";
        plus (fun c => is_alnum c || one_of (str ".-") c);
        chr ".";
        Rep is_letter 2 None].

Definition extractAddresses (t : text) : list text := matchAll addressRegex t.
Definition extractPhoneNumbers (t : text) : list text := matchAll phoneRegex t.
Definition extractWebsites (t : text) : list text := matchAll websiteRegex t.
Definition extractEmails (t : text) : list text := matchAll emailRegex t.

(** *** The OCR-consuming entry point *)

Record ExtractedText : Type :=
  { businessNames : list text;
    addresses : list text;
    phoneNumbers : list text;
    websites : list text;
    emails : list text;
    otherText : list text;
    confidence : Confidence }.

(** [extractTextWithEnhancedVision], from the annotations the OCR call
    returned; [None] is the thrown "Failed to extract text from image". *)
Definition extractTextWithEnhancedVision (detections : list Detection)
  : option ExtractedText :=
  match detections with
  | [] => None
  | _ :: _ =>
      let fullText := fullTextOf detections in
      let businessNames := extractBusinessNamesWithContext fullText in
      let addresses := extractAddresses fullText in
      let phoneNumbers := extractPhoneNumbers fullText in
      let websites := extractWebsites fullText in
      let emails := extractEmails fullText in
      let otherText :=
        filter (fun line =>
                  (0 <? length (trim line))
                  && negb (existsb (includes line) phoneNumbers)
                  && negb (existsb (includes line) websites)
                  && negb (existsb (includes line) emails))
               (split "010" fullText) in
      Some {| businessNames := businessNames;
              addresses := addresses;
              phoneNumbers := phoneNumbers;
              websites := websites;
              emails := emails;
              otherText := otherText;
              confidence := calculateSmartConfidence detections businessNames |}
  end.

End EnhancedVision.

(* ================================================================= *)
(** ** lib/places.ts *)

Module Places.

#[local] Unset Elimination Schemes.
Inductive Json : Type :=
| JNull
| JBool (b : bool)
| JNum (n : Z)
| JStr (s : text)
| JArr (items : list Json)
| JObj (fields : list (text * Json)).
#[local] Set Elimination Schemes.

(** A place object of the places service; an absent field is [None]. *)
Record PlacesResult : Type :=
  { place_id : option Json;
    name : option Json;
    formatted_address : option Json;
    geometry : option Json;
    types : option Json;
    rating : option Json;
    user_ratings_total : option Json;
    business_status : option Json;
    international_phone_number : option Json;
    website : option Json;
    opening_hours : option Json;
    price_level : option Json }.

Record SearchData : Type :=
  { search_status : text;
    search_error_message : option text;
    results : option (list PlacesResult) }.

Record DetailsData : Type :=
  { details_status : text;
    details_error_message : option text;
    result : option PlacesResult }.

(** What [await fetch(url)] can do: reject (a transport failure), or
    resolve to a response with its [ok] flag, whose [json()] in turn
    resolves to a body or rejects ([None]). *)
Inductive Fetched (A : Type) : Type :=
| Rejected
| Responded (ok : bool) (json : option A).
Arguments Rejected {A}.

(** Completions of the [try] block: a returned value or a thrown error. *)
Inductive Completion (A : Type) : Type :=
| Return (a : A)
| Throw.
Arguments Throw {A}.

Definition bind {A B} (c : Completion A) (k : A -> Completion B)
  : Completion B :=
  match c with
  | Return a => k a
  | Throw => Throw
  end.

Notation "x <- c ;; k" := (bind c (fun x => k))
  (at level 61, c at next level, right associativity).

(** [await fetch(url)] *)
Definition awaitFetch {A} (f : Fetched A) : Completion (bool * option A) :=
  match f with
  | Rejected => Throw
  | Responded ok json => Return (ok, json)
  end.

(** [await response.json()] *)
Definition awaitJson {A} (json : option A) : Completion A :=
  match json with
  | Some a => Return a
  | None => Throw
  end.

(** The record [searchBusiness] builds when the details request is not
    [ok]. *)
Definition fallbackResult (bestMatch : PlacesResult) : PlacesResult :=
  {| place_id := place_id bestMatch;
     name := name bestMatch;
     formatted_address := formatted_address bestMatch;
     geometry := geometry bestMatch;
     types := types bestMatch;
     rating := rating bestMatch;
     user_ratings_total := user_ratings_total bestMatch;
     business_status := None;
     international_phone_number := None;
     website := None;
     opening_hours := None;
     price_level := None |}.

Definition truthy (s : option text) : bool :=
  match s with
  | Some (_ :: _) => true
  | _ => false
  end.

(** [address ? `${businessName} ${address}` : businessName] *)
Definition buildQuery (businessName : text) (address : option text) : text :=
  if truthy address
  then businessName ++ str " " ++ match address with Some a => a | None => [] end
  else businessName.

(** JavaScript truthiness of a parsed JSON value. *)
Definition truthyJson (j : Json) : bool :=
  match j with
  | JNull => false
  | JBool b => b
  | JNum n => negb (n =? 0)%Z
  | JStr s => negb (length s =? 0)
  | JArr _ | JObj _ => true
  end.

(** A truthy value that is not an array: it has no [join] and no [forEach]
    that could be called. *)
Definition notArray (x : option Json) : bool :=
  match x with
  | None => false
  | Some (JArr _) => false
  | Some j => truthyJson j
  end.

(** [(x || []).join(', ')], and [x.forEach(...)] under [if (x)], with a
    callback that cannot throw: a type error when [x] is truthy and not an
    array. *)
Definition arrayCall (x : option Json) : Completion unit :=
  if notArray x then Throw else Return tt.

(** [fields[key]] on a parsed JSON object: of two fields of the same name
    the parser keeps the last. *)
Fixpoint getField (key : text) (fields : list (text * Json)) : option Json :=
  match fields with
  | [] => None
  | (k, v) :: rest =>
      match getField key rest with
      | Some later => Some later
      | None => if text_eqb k key then Some v else None
      end
  end.

(** [result.opening_hours?.weekday_text]: [undefined] unless
    [opening_hours] is an object with that field. *)
Definition weekday_text (opening_hours : option Json) : option Json :=
  match opening_hours with
  | Some (JObj fields) => getField (str "weekday_text") fields
  | _ => None
  end.

(** [list.forEach(f)]: the first call that throws ends the loop. *)
Fixpoint forEach {A} (f : A -> Completion unit) (l : list A)
  : Completion unit :=
  match l with
  | [] => Return tt
  | a :: rest => done <- f a ;; forEach f rest
  end.

(** The log lines of one search result (lines 58 to 64); the only one
    that can throw is [(result.types || []).join(', ')]. *)
Definition logSearchResult (r : PlacesResult) : Completion unit :=
  arrayCall (types r).

Section SearchBusiness.

(** The runtime: whether ['$'.repeat(x + 1)] throws a range error for the
    JSON value [x] (the count is negative, or the string would be longer
    than the runtime allows). *)
Variable repeatThrows : Json -> bool.

(** The log lines of the details result (lines 131 to 150): the price
    level, the types and the opening hours can throw. *)
Definition logDetails (r : PlacesResult) : Completion unit :=
  priced <- match price_level r with
            | None => Return tt
            | Some x => if repeatThrows x then Throw else Return tt
            end ;;
  typed <- arrayCall (types r) ;;
  arrayCall (weekday_text (opening_hours r)).

(** The environment: the configured key and the two remote calls, the text
    search by query and the details lookup by place identifier. *)
Variable apiKey : option text.
Variable textSearch : text -> Fetched SearchData.
Variable placeDetails : option Json -> Fetched DetailsData.

(** The body of the [try] block of [searchBusiness]. *)
Definition searchBusinessBody (businessName : text) (address : option text)
  : Completion (option PlacesResult) :=
  let query := buildQuery businessName address in
  if negb (truthy apiKey) then Return None
  else
    searchResponse <- awaitFetch (textSearch query) ;;
    if negb (fst searchResponse) then Return None
    else
      searchData <- awaitJson (snd searchResponse) ;;
      if negb (text_eqb (search_status searchData) (str "OK"))
      then Return None
      else
        match results searchData with
        | None | Some [] => Return None
        | Some (bestMatch :: rest) =>
            logged <- forEach logSearchResult (bestMatch :: rest) ;;
            let placeId := place_id bestMatch in
            detailsResponse <- awaitFetch (placeDetails placeId) ;;
            if negb (fst detailsResponse)
            then Return (Some (fallbackResult bestMatch))
            else
              detailsData <- awaitJson (snd detailsResponse) ;;
              if negb (text_eqb (details_status detailsData) (str "OK"))
              then Return (Some bestMatch)
              else
                match result detailsData with
                | Some r => logged <- logDetails r ;; Return (Some r)
                | None => Throw
                end
        end.

(** [searchBusiness]: the [catch] clause turns every thrown error into
    [null]. *)
Definition searchBusiness (businessName : text) (address : option text)
  : option PlacesResult :=
  match searchBusinessBody businessName address with
  | Return r => r
  | Throw => None
  end.

End SearchBusiness.

(** The initial text search succeeded and [bestMatch] is its first result. *)
Definition searchSucceeds (apiKey : option text)
  (textSearch : text -> Fetched SearchData)
  (businessName : text) (address : option text) (bestMatch : PlacesResult)
  : Prop :=
  truthy apiKey = true /\
  exists data rest,
    textSearch (buildQuery businessName address) = Responded true (Some data)
    /\ search_status data = str "OK"
    /\ results data = Some (bestMatch :: rest).

(** The details (enrichment) request failed: it was rejected, answered with
    a non-[ok] response, an unreadable body, a non-[OK] status or no result. *)
Definition detailsFailed (f : Fetched DetailsData) : Prop :=
  match f with
  | Rejected => True
  | Responded ok json =>
      ok = false \/
      match json with
      | None => True
      | Some d => details_status d <> str "OK" \/ result d = None
      end
  end.

(** The fields of a place that the text search already provides. *)
Definition sameBasicFields (r bestMatch : PlacesResult) : Prop :=
  place_id r = place_id bestMatch /\
  name r = name bestMatch /\
  formatted_address r = formatted_address bestMatch /\
  geometry r = geometry bestMatch /\
  types r = types bestMatch /\
  rating r = rating bestMatch /\
  user_ratings_total r = user_ratings_total bestMatch.

End Places.

(* ================================================================= *)
(** ** components/BusinessListingGenerator.tsx *)

Module Generator.

Import EnhancedVision.

Definition level_eqb (a b : Level) : bool :=
  match a, b with
  | High, High | Medium, Medium | Low, Low => true
  | _, _ => false
  end.

Definition genericNames : list text :=
  [str "business"; str "company"; str "store"; str "shop"].

(** [textData.businessNames[0]?.toLowerCase() || ''] *)
Definition firstBusinessName (textData : ExtractedText) : text :=
  match businessNames textData with
  | n :: _ => toLowerCase n
  | [] => []
  end.

Definition shouldRequestConfirmation (textData : ExtractedText) : bool :=
  if level_eqb (businessName (confidence textData)) Low then true
  else if length (businessNames textData) =? 0 then true
  else if existsb (fun generic => includes (firstBusinessName textData) generic)
                  genericNames
          && (length (firstBusinessName textData) <? 10)
  then true
  else false.

(** What [processImage] does once the text has been extracted: it shows
    the confirmation step, or continues with [businessNames[0]]. *)
Inductive NextStep : Type :=
| Confirmation
| ContinueProcessing (businessName : option text).

Definition processImage (textData : ExtractedText) : NextStep :=
  let needsConfirmation := shouldRequestConfirmation textData in
  if needsConfirmation then Confirmation
  else ContinueProcessing (nth_error (businessNames textData) 0).

End Generator.

Import EnhancedVision.

(* ================================================================= *)
(** ** lib/places.ts, continued: location options and formatting *)

Module PlacesOptions.

Import Places.

(** The object [getMultiplePlacesOptions] builds from one search result. *)
Definition processedOption (r : PlacesResult) : PlacesResult :=
  {| place_id := place_id r;
     name := name r;
     formatted_address := formatted_address r;
     geometry := geometry r;
     types := types r;
     rating := rating r;
     user_ratings_total := user_ratings_total r;
     business_status := business_status r;
     international_phone_number := None;
     website := None;
     opening_hours := None;
     price_level := None |}.

Section GetMultiplePlacesOptions.

Variable apiKey : option text.
Variable textSearch : text -> Fetched SearchData.

(** The body of the [try] block of [getMultiplePlacesOptions]. *)
Definition getMultiplePlacesOptionsBody (businessName : text)
  (address : option text) : Completion (list PlacesResult) :=
  let query := buildQuery businessName address in
  if negb (truthy apiKey) then Return []
  else
    searchResponse <- awaitFetch (textSearch query) ;;
    if negb (fst searchResponse) then Return []
    else
      searchData <- awaitJson (snd searchResponse) ;;
      if negb (text_eqb (search_status searchData) (str "OK"))
         || match results searchData with
            | None => true
            | Some rs => length rs =? 0
            end
      then Return []
      else
        let options :=
          slice 0 10 (match results searchData with
                      | Some rs => rs
                      | None => []
                      end) in
        Return (map processedOption options).

(** [getMultiplePlacesOptions]: every thrown error becomes the empty list. *)
Definition getMultiplePlacesOptions (businessName : text)
  (address : option text) : list PlacesResult :=
  match getMultiplePlacesOptionsBody businessName address with
  | Return options => options
  | Throw => []
  end.

End GetMultiplePlacesOptions.

(** [openingHours?: { weekday_text: string[] }] *)
Record OpeningHours : Type := { weekday_text : option (list text) }.

Definition formatBusinessHours (openingHours : option OpeningHours) : text :=
  match openingHours with
  | None => str "Not Available"
  | Some h =>
      match weekday_text h with
      | None => str "Not Available"
      | Some days => join (str ", ") days
      end
  end.

(** [\w] *)
Definition is_word (c : ascii) : bool := is_alnum c || is_char "_" c.

(** [l.toUpperCase()] for a character [l] matched by [\w]. *)
Definition upper_char (c : ascii) : ascii :=
  if is_lower c then ascii_of_N (code c - 32) else c.

(** [s.replace(/_/g, ' ')] *)
Definition replaceUnderscores (s : text) : text :=
  map (fun c => if is_char "_" c then " "%char else c) s.

(** [s.replace(/\b\w/g, l => l.toUpperCase())]: a word character is
    replaced when the character before it, if any, is not a word character. *)
Fixpoint capitalizeWords_from (prevIsWord : bool) (s : text) : text :=
  match s with
  | [] => []
  | c :: t =>
      (if is_word c && negb prevIsWord then upper_char c else c)
        :: capitalizeWords_from (is_word c) t
  end.

Definition capitalizeWords (s : text) : text := capitalizeWords_from false s.

(** The callback that makes a type readable. *)
Definition readableType (type : text) : text :=
  capitalizeWords (replaceUnderscores type).

Definition isGenericType (type : text) : bool :=
  includes type (str "establishment") || includes type (str "point_of_interest").

(** [x || fallback] on strings. *)
Definition orElse (x fallback : text) : text :=
  match x with
  | [] => fallback
  | _ :: _ => x
  end.

Definition formatBusinessTypes (types : option (list text)) : text :=
  match types with
  | None | Some [] => str "Not Available"
  | Some ts =>
      let filteredTypes := filter (fun type => negb (isGenericType type)) ts in
      let readableTypes := slice 0 3 (map readableType filteredTypes) in
      orElse (join (str ", ") readableTypes) (str "Not Available")
  end.

End PlacesOptions.

(* ================================================================= *)
(** ** components/LocationSelector.tsx *)

Module LocationSelector.

Import PlacesOptions.

Definition formatBusinessTypes (types : option (list text)) : text :=
  match types with
  | None | Some [] => str "Business"
  | Some ts =>
      let readableTypes :=
        slice 0 2
          (map (fun type => capitalizeWords (replaceUnderscores type))
               (filter (fun type => negb (isGenericType type)) ts)) in
      orElse (join (str ", ") readableTypes) (str "Business")
  end.

Definition getStatusText (status : option text) : text :=
  match status with
  | None => str "Status Unknown"
  | Some s =>
      if text_eqb s (str "OPERATIONAL") then str "Open"
      else if text_eqb s (str "CLOSED_TEMPORARILY")
      then str "Temporarily Closed"
      else if text_eqb s (str "CLOSED_PERMANENTLY")
      then str "Permanently Closed"
      else str "Status Unknown"
  end.

End LocationSelector.

(* ================================================================= *)
(** ** components/FileUpload.tsx *)

Module FileUpload.

(** [handleManualSubmit]: the name handed to [onManualSubmit], if the
    callback is called at all. *)
Definition handleManualSubmit (manualBusinessName : text)
  (onManualSubmit : bool) : option text :=
  match trim manualBusinessName with
  | _ :: _ => if onManualSubmit then Some (trim manualBusinessName) else None
  | [] => None
  end.

End FileUpload.

(* ================================================================= *)
(** ** components/BusinessListingGenerator.tsx, continued *)

Module Workflow.

Import EnhancedVision.

(** [[businessName, ...names.filter(name => name !== businessName)]] *)
Definition businessNameFirst (businessName : text) (names : list text)
  : list text :=
  businessName :: filter (fun name => negb (text_eqb name businessName)) names.

(** [{ ...textData, businessNames: [businessName, ...] }] *)
Definition withBusinessNameFirst (textData : ExtractedText)
  (businessName : text) : ExtractedText :=
  {| businessNames := businessNameFirst businessName (businessNames textData);
     addresses := addresses textData;
     phoneNumbers := phoneNumbers textData;
     websites := websites textData;
     emails := emails textData;
     otherText := otherText textData;
     confidence := confidence textData |}.

(** The body of the request [continueProcessing] posts to
    [/api/process-business]; [L] is the type of a location option. *)
Record RequestBody (L : Type) : Type :=
  { extractedText : ExtractedText; selectedLocation : option L }.

Definition requestBody {L} (textData : ExtractedText) (businessName : text)
  (selectedLocation : option L) : RequestBody L :=
  {| extractedText := withBusinessNameFirst textData businessName;
     selectedLocation := selectedLocation |}.

(** The request of [handleBusinessNameConfirmation]: the text data is
    updated with the confirmed name, then handed to [continueProcessing]. *)
Definition confirmationRequest {L} (extractedTextData : ExtractedText)
  (businessName : text) : RequestBody L :=
  let updatedTextData := withBusinessNameFirst extractedTextData businessName in
  requestBody updatedTextData businessName None.

(** The text data [handleManualSubmit] makes up for a typed name. *)
Definition mockExtractedText (businessName : text) : ExtractedText :=
  {| businessNames := [businessName];
     addresses := [];
     phoneNumbers := [];
     websites := [];
     emails := [];
     otherText := [];
     confidence :=
       {| businessName := High; address := Low; phone := Low |} |}.

(** The request of [handleManualSubmit]. *)
Definition manualRequest {L} (businessName : text) : RequestBody L :=
  requestBody (mockExtractedText businessName) businessName None.

(** The request of [processImage] when no confirmation is needed:
    [continueProcessing(text, text.businessNames[0])].  With no first name
    the argument is [undefined], which no text models: [None]. *)
Definition autoContinueRequest {L} (textData : ExtractedText)
  : option (RequestBody L) :=
  match businessNames textData with
  | first :: _ => Some (requestBody textData first None)
  | [] => None
  end.

End Workflow.

(* ================================================================= *)
(** ** Notions used in the statements *)

(** Two candidates are apart when [removeSimilarCandidates] would keep
    both. *)
Definition apart (a b : Candidate) : Prop := isContained a b = false.

(** [kept] is [all] with some elements left out, the others in place. *)
Inductive subsequence {A : Type} : list A -> list A -> Prop :=
| subsequence_nil : subsequence [] []
| subsequence_keep x kept all :
    subsequence kept all -> subsequence (x :: kept) (x :: all)
| subsequence_drop x kept all :
    subsequence kept all -> subsequence kept (x :: all).

Definition hasScore (v : Z) (c : Candidate) : bool := (score c =? v)%Z.

Definition scoreGe (a b : Candidate) : Prop := (score b <= score a)%Z.

Definition bonus (b : bool) (x : float) : float := if b then x else 0%float.

(** The composite score in the words of the specification: a base, five
    conditional additions, and the clamp. *)
Definition specConfidence (nDetections nNames nWords : nat) : float :=
  Math_min 0.95
    (0.5
     + bonus (5 <? nDetections)%nat 0.1
     + bonus (10 <? nDetections)%nat 0.1
     + bonus (0 <? nNames)%nat 0.2
     + bonus (1 <? nNames)%nat 0.1
     + bonus (5 <=? nWords)%nat 0.1)%float.

(** The rational number a finite binary64 value stands for. *)
Definition realValue (x : float) : Q :=
  match Prim2SF x with
  | S754_finite sign m e =>
      let v := if (0 <=? e)%Z then inject_Z (Z.pos m * 2 ^ e)
               else Qmake (Z.pos m) (Pos.pow 2 (Z.to_pos (- e)%Z)) in
      if sign then Qopp v else v
  | _ => 0%Q
  end.

Definition exactBonus (b : bool) (q : Q) : Q := if b then q else 0%Q.

(** The same score computed without rounding. *)
Definition exactConfidence (nDetections nNames nWords : nat) : Q :=
  Qmin (95 # 100)%Q
    ((5 # 10)
     + exactBonus (5 <? nDetections) (1 # 10)
     + exactBonus (10 <? nDetections) (1 # 10)
     + exactBonus (0 <? nNames) (2 # 10)
     + exactBonus (1 <? nNames) (1 # 10)
     + exactBonus (5 <=? nWords) (1 # 10))%Q.

Definition exactLevel (q : Q) : Level :=
  if negb (Qle_bool q (7 # 10)%Q) then High
  else if negb (Qle_bool q (5 # 10)%Q) then Medium
  else Low.

(* ================================================================= *)
(** ** Inputs used as examples *)

(** The sign of the specification's first scenario, one line per row. *)
Definition joesSign : text :=
  str "JOE'S COFFEE SHOP" ++ ["010"%char] ++ str "123 Main Street"
  ++ ["010"%char] ++ str "Open Daily".

Definition sevenLines : list text :=
  [str "aaaa"; str "bbbb"; str "cccc"; str "dddd"; str "eeee"; str "ffff";
   str "gggg"].

(** Seven annotations of a sign that shows digits only. *)
Definition digitsOnlySign : list Detection :=
  map (fun t => {| description := Some t |})
      [str "12 34 56 78 90 11"; str "12"; str "34"; str "56"; str "78";
       str "90"; str "11"].

Definition shortSign : list Detection :=
  [{| description := Some (str "12 34") |}].

Definition joesPlace : Places.PlacesResult :=
  {| Places.place_id := Some (Places.JStr (str "ChIJ-joes"));
     Places.name := Some (Places.JStr (str "Joe's Coffee"));
     Places.formatted_address := Some (Places.JStr (str "123 Main Street"));
     Places.geometry := None;
     Places.types := Some (Places.JArr [Places.JStr (str "cafe")]);
     Places.rating := Some (Places.JNum 4);
     Places.user_ratings_total := Some (Places.JNum 12);
     Places.business_status := Some (Places.JStr (str "OPERATIONAL"));
     Places.international_phone_number := None;
     Places.website := None;
     Places.opening_hours := None;
     Places.price_level := None |}.

Definition oneResult (query : text) : Places.Fetched Places.SearchData :=
  Places.Responded true
    (Some {| Places.search_status := str "OK";
             Places.search_error_message := None;
             Places.results := Some [joesPlace] |}).

Definition detailsUnreachable (placeId : option Places.Json)
  : Places.Fetched Places.DetailsData :=
  Places.Rejected.

(** Joe's place with the given [types], [opening_hours] and
    [price_level]. *)
Definition joesPlaceWith (types opening_hours price_level : option Places.Json)
  : Places.PlacesResult :=
  {| Places.place_id := Places.place_id joesPlace;
     Places.name := Places.name joesPlace;
     Places.formatted_address := Places.formatted_address joesPlace;
     Places.geometry := None;
     Places.types := types;
     Places.rating := Places.rating joesPlace;
     Places.user_ratings_total := Places.user_ratings_total joesPlace;
     Places.business_status := Places.business_status joesPlace;
     Places.international_phone_number := None;
     Places.website := None;
     Places.opening_hours := opening_hours;
     Places.price_level := price_level |}.

(** A text search answered with the given results. *)
Definition searchOf (found : list Places.PlacesResult) (query : text)
  : Places.Fetched Places.SearchData :=
  Places.Responded true
    (Some {| Places.search_status := str "OK";
             Places.search_error_message := None;
             Places.results := Some found |}).

(** A details request answered with the given place. *)
Definition detailsOf (r : Places.PlacesResult) (placeId : option Places.Json)
  : Places.Fetched Places.DetailsData :=
  Places.Responded true
    (Some {| Places.details_status := str "OK";
             Places.details_error_message := None;
             Places.result := Some r |}).

Definition cafeTypes : option Places.Json :=
  Some (Places.JArr [Places.JStr (str "cafe")]).

Definition hoursOf (weekday_text : Places.Json) : option Places.Json :=
  Some (Places.JObj [(str "weekday_text", weekday_text)]).

(* ================================================================= *)
(** ** Further notions: character enumeration, white space at the ends *)

Definition all_ascii : list ascii := map ascii_of_nat (seq 0 256).

(** A property of characters checked on each of the 256 code units. *)
Definition forall_ascii (f : ascii -> bool) : bool := forallb f all_ascii.

(** No white space at the start, none at the end. *)
Definition head_not_space (s : text) : Prop :=
  match s with
  | [] => True
  | c :: _ => is_space c = false
  end.

Definition trimmed (s : text) : Prop :=
  head_not_space s /\ head_not_space (rev s).

(** The relation under which the deduplicator discards a candidate. *)
Definition similar (existing candidate : Candidate) : Prop :=
  substring (toLowerCase (name existing)) (toLowerCase (name candidate))
  \/ substring (toLowerCase (name candidate)) (toLowerCase (name existing))
  \/ toLowerCase (name existing) = toLowerCase (name candidate).

(** How many characters of a text satisfy [Q]. *)
Definition countChars (Q : ascii -> bool) (w : text) : nat :=
  length (filter Q w).

(** Every character of class [p] satisfies [Q]; none does. *)
Definition class_all (Q p : ascii -> bool) : bool :=
  forall_ascii (fun c => implb (p c) (Q c)).

Definition class_none (Q p : ascii -> bool) : bool :=
  forall_ascii (fun c => implb (p c) (negb (Q c))).

(** Bounds, read off an expression, on how many characters of its words
    satisfy [Q]: at least [count_lo], at most [count_hi] when that is
    [Some]. *)
Fixpoint count_lo (Q : ascii -> bool) (r : regex) : nat :=
  match r with
  | Eps => 0
  | Cls p => if class_all Q p then 1 else 0
  | Rep p lo _ => if class_all Q p then lo else 0
  | Seq r1 r2 => count_lo Q r1 + count_lo Q r2
  | Alt r1 r2 => Nat.min (count_lo Q r1) (count_lo Q r2)
  | Opt _ => 0
  end.

Fixpoint count_hi (Q : ascii -> bool) (r : regex) : option nat :=
  match r with
  | Eps => Some 0
  | Cls p => Some (if class_none Q p then 0 else 1)
  | Rep p _ hi => if class_none Q p then Some 0 else hi
  | Seq r1 r2 =>
      match count_hi Q r1, count_hi Q r2 with
      | Some a, Some b => Some (a + b)
      | _, _ => None
      end
  | Alt r1 r2 =>
      match count_hi Q r1, count_hi Q r2 with
      | Some a, Some b => Some (Nat.max a b)
      | _, _ => None
      end
  | Opt r1 => count_hi Q r1
  end.

(** A word of a pattern candidate: Latin letters, the first a capital. *)
Definition capitalWord (w : text) : Prop :=
  Forall (fun c => is_letter c = true) w
  /\ exists c rest, w = c :: rest /\ is_upper c = true.

(** Levels in increasing order. *)
Definition levelRank (l : Level) : nat :=
  match l with
  | Low => 0
  | Medium => 1
  | High => 2
  end.

(** A window of 1 to 4 consecutive lines, joined by single spaces. *)
Definition window (lines : list text) (c : text) : Prop :=
  exists i j,
    i < j /\ j <= length lines /\ j <= i + 4
    /\ c = join (str " ") (slice i j lines).

(* ================================================================= *)
(** * Properties *)

(** ** Strings *)

Section StringFacts.

Lemma text_eqb_true (a b : text) : text_eqb a b = true <-> a = b.
Proof.
  unfold text_eqb. destruct (list_eq_dec ascii_dec a b); split; congruence.
Qed.

Lemma text_eqb_false (a b : text) : text_eqb a b = false <-> a <> b.
Proof.
  unfold text_eqb. destruct (list_eq_dec ascii_dec a b); split; congruence.
Qed.

Lemma text_eqb_sym (a b : text) : text_eqb a b = text_eqb b a.
Proof.
  unfold text_eqb.
  destruct (list_eq_dec ascii_dec a b), (list_eq_dec ascii_dec b a); congruence.
Qed.

Lemma startsWith_spec (s p : text) :
  startsWith s p = true <-> exists rest, s = p ++ rest.
Proof.
  revert s. induction p as [|a p IH]; intros s.
  - split; [intros _; now exists s | intros _; now destruct s].
  - destruct s as [|b s]; simpl.
    + split; [discriminate | intros [rest H]; discriminate].
    + rewrite andb_true_iff, Ascii.eqb_eq, IH. split.
      * intros [-> [rest ->]]. now exists rest.
      * intros [rest H]. injection H as -> ->. split; [reflexivity | now exists rest].
Qed.

(** [includes] decides the substring relation. *)
Lemma includes_spec (s sub : text) :
  includes s sub = true <-> substring sub s.
Proof.
  unfold substring. induction s as [|c s IH].
  - cbn [includes]. rewrite orb_false_r, startsWith_spec. split.
    + intros [rest H]. now exists [], rest.
    + intros [pre [post H]]. destruct pre; [now exists post | discriminate].
  - cbn [includes]. rewrite orb_true_iff, startsWith_spec, IH. split.
    + intros [[rest H] | [pre [post H]]].
      * now exists [], rest.
      * exists (c :: pre), post. simpl. now rewrite H.
    + intros [pre [post H]]. destruct pre as [|c' pre].
      * left. now exists post.
      * right. injection H as _ H. now exists pre, post.
Qed.

Lemma includes_false (s sub : text) :
  includes s sub = false <-> ~ substring sub s.
Proof.
  rewrite <- includes_spec. destruct (includes s sub); split; congruence.
Qed.

Lemma toLowerCase_length (s : text) : length (toLowerCase s) = length s.
Proof. apply length_map. Qed.

End StringFacts.

(** ** Lists of pairwise unrelated elements *)

Section OrderedPairs.

Variable A : Type.
Variable R : A -> A -> Prop.

Lemma FOP_snoc (u : list A) (c : A) :
  ForallOrdPairs R u -> Forall (fun e => R e c) u ->
  ForallOrdPairs R (u ++ [c]).
Proof.
  induction 1 as [|a l Ha Hl IH]; intros Hc; simpl.
  - repeat constructor.
  - inversion Hc; subst. constructor.
    + apply Forall_app. split; [assumption | now constructor].
    + now apply IH.
Qed.

Lemma FOP_app_inv (u v : list A) :
  ForallOrdPairs R (u ++ v) ->
  forall a b, In a u -> In b v -> R a b.
Proof.
  induction u as [|x u IH]; intros H a b Ha Hb; [contradiction|].
  simpl in H. inversion H as [|? ? Hx Hrest]; subst.
  destruct Ha as [-> | Ha].
  - rewrite Forall_forall in Hx. apply Hx, in_or_app. now right.
  - now apply IH.
Qed.

Lemma FOP_split (l1 l2 l3 : list A) (a b : A) :
  ForallOrdPairs R (l1 ++ a :: l2 ++ b :: l3) -> R a b.
Proof.
  intros H. apply (@FOP_app_inv (l1 ++ [a]) (l2 ++ b :: l3)).
  - now rewrite <- app_assoc.
  - apply in_or_app. right. now left.
  - apply in_or_app. right. now left.
Qed.

Hypothesis R_sym : forall a b, R a b -> R b a.

Lemma FOP_perm (l l' : list A) :
  Permutation l l' -> ForallOrdPairs R l -> ForallOrdPairs R l'.
Proof.
  induction 1 as [| x l l' Hp IH | x y l | l l' l'' H1 IH1 H2 IH2]; intros H.
  - assumption.
  - inversion H; subst. constructor.
    + eapply Permutation_Forall; eassumption.
    + now apply IH.
  - inversion H as [|? ? Hy Hrest]; subst.
    inversion Hy; subst. inversion Hrest; subst.
    constructor; [constructor; auto | constructor; assumption].
  - auto.
Qed.

End OrderedPairs.

(** ** The deduplicator *)

Section Deduplicator.

Lemma isContained_sym (a b : Candidate) : isContained a b = isContained b a.
Proof.
  unfold isContained.
  rewrite (text_eqb_sym (toLowerCase (name a))).
  rewrite (orb_comm (includes (toLowerCase (name a)) _)). reflexivity.
Qed.

Lemma apart_sym (a b : Candidate) : apart a b -> apart b a.
Proof. unfold apart. now rewrite isContained_sym. Qed.

(** [isContained] in the words of the specification. *)
Lemma isContained_spec (existing candidate : Candidate) :
  isContained existing candidate = true <->
  substring (toLowerCase (name existing)) (toLowerCase (name candidate))
  \/ substring (toLowerCase (name candidate)) (toLowerCase (name existing))
  \/ toLowerCase (name existing) = toLowerCase (name candidate).
Proof.
  unfold isContained.
  rewrite !orb_true_iff, !includes_spec, text_eqb_true. tauto.
Qed.

Lemma apart_not_substring (a b : Candidate) :
  apart a b ->
  ~ substring (toLowerCase (name a)) (toLowerCase (name b)) /\
  ~ substring (toLowerCase (name b)) (toLowerCase (name a)).
Proof.
  unfold apart. intros H. split; intros Hs;
    assert (isContained a b = true) by (apply isContained_spec; tauto);
    congruence.
Qed.

Lemma isDuplicate_false (unique : list Candidate) (c : Candidate) :
  existsb (fun existing => isContained existing c) unique = false <->
  Forall (fun e => apart e c) unique.
Proof.
  unfold apart. rewrite Forall_forall. split.
  - intros H e He. destruct (isContained e c) eqn:E; [|reflexivity].
    assert (existsb (fun existing => isContained existing c) unique = true)
      by (apply existsb_exists; eauto).
    congruence.
  - intros H. destruct (existsb _ unique) eqn:E; [|reflexivity].
    apply existsb_exists in E. destruct E as [e [He Hc]].
    rewrite (H e He) in Hc. discriminate.
Qed.

(** The accepted list stays pairwise apart. *)
Lemma removeSimilar_from_apart (candidates unique : list Candidate) :
  ForallOrdPairs apart unique ->
  ForallOrdPairs apart (removeSimilar_from unique candidates).
Proof.
  revert unique. induction candidates as [|c rest IH]; intros unique Hu; simpl.
  - assumption.
  - destruct (existsb _ unique) eqn:E.
    + now apply IH.
    + apply IH, FOP_snoc; [assumption | now apply isDuplicate_false].
Qed.

(** On candidates that are already pairwise apart the loop accepts
    everything. *)
Lemma removeSimilar_from_id (candidates unique : list Candidate) :
  ForallOrdPairs apart (unique ++ candidates) ->
  removeSimilar_from unique candidates = unique ++ candidates.
Proof.
  revert unique. induction candidates as [|c rest IH]; intros unique H; simpl.
  - now rewrite app_nil_r.
  - assert (E : existsb (fun existing => isContained existing c) unique = false).
    { apply isDuplicate_false, Forall_forall. intros e He.
      eapply FOP_app_inv; [exact H | exact He | now left]. }
    rewrite E, IH; rewrite <- app_assoc; [reflexivity | assumption].
Qed.

Lemma removeSimilar_from_In (candidates unique : list Candidate) (c : Candidate) :
  In c (removeSimilar_from unique candidates) -> In c unique \/ In c candidates.
Proof.
  revert unique. induction candidates as [|x rest IH]; intros unique H; simpl in *.
  - now left.
  - destruct (existsb _ unique).
    + destruct (IH _ H); auto.
    + destruct (IH _ H) as [H1 | H1]; auto.
      apply in_app_or in H1. destruct H1 as [H1 | [-> | []]]; auto.
Qed.

(** The loop only appends to the accepted list, and what it appends are
    candidates in their original order. *)
Lemma removeSimilar_from_subsequence (candidates unique : list Candidate) :
  exists kept,
    removeSimilar_from unique candidates = unique ++ kept
    /\ subsequence kept candidates.
Proof.
  revert unique. induction candidates as [|c rest IH]; intros unique; simpl.
  - exists []. split; [now rewrite app_nil_r | constructor].
  - destruct (existsb _ unique).
    + destruct (IH unique) as [kept [-> Hk]].
      exists kept. split; [reflexivity | now constructor].
    + destruct (IH (unique ++ [c])) as [kept [-> Hk]].
      exists (c :: kept). split; [now rewrite <- app_assoc | now constructor].
Qed.

Lemma removeSimilarCandidates_subsequence (candidates : list Candidate) :
  subsequence (removeSimilarCandidates candidates) candidates.
Proof.
  destruct (removeSimilar_from_subsequence candidates []) as [kept [H Hk]].
  unfold removeSimilarCandidates. now rewrite H.
Qed.

Lemma removeSimilarCandidates_apart (candidates : list Candidate) :
  ForallOrdPairs apart (removeSimilarCandidates candidates).
Proof. apply removeSimilar_from_apart. constructor. Qed.

End Deduplicator.

(** ** The ranking *)

Section Ranking.

Lemma insertBy_perm (x : Candidate) (l : list Candidate) :
  Permutation (x :: l) (insertBy byScoreDesc x l).
Proof.
  induction l as [|y l IH]; simpl; [reflexivity|].
  destruct (byScoreDesc x y <=? 0)%Z; [reflexivity|].
  rewrite perm_swap. now constructor.
Qed.

Lemma sortBy_perm (l : list Candidate) : Permutation l (sortBy byScoreDesc l).
Proof.
  induction l as [|x l IH]; simpl; [constructor|].
  rewrite <- insertBy_perm. now constructor.
Qed.

Lemma insertBy_sorted (x : Candidate) (l : list Candidate) :
  StronglySorted scoreGe l -> StronglySorted scoreGe (insertBy byScoreDesc x l).
Proof.
  induction 1 as [|y l Hl IH Hy]; simpl.
  - repeat constructor.
  - destruct (byScoreDesc x y <=? 0)%Z eqn:E.
    + apply Z.leb_le in E. unfold byScoreDesc in E.
      constructor; [now constructor|].
      constructor; [unfold scoreGe; lia|].
      eapply Forall_impl; [|exact Hy]. unfold scoreGe. intros; lia.
    + apply Z.leb_gt in E. unfold byScoreDesc in E.
      constructor; [assumption|].
      eapply Permutation_Forall; [apply insertBy_perm|].
      constructor; [unfold scoreGe; lia | assumption].
Qed.

Lemma sortBy_sorted (l : list Candidate) :
  StronglySorted scoreGe (sortBy byScoreDesc l).
Proof.
  induction l; simpl; [constructor | now apply insertBy_sorted].
Qed.

(** Stability: the candidates of any one score keep their order. *)
Lemma insertBy_stable (v : Z) (x : Candidate) (l : list Candidate) :
  filter (hasScore v) (insertBy byScoreDesc x l) = filter (hasScore v) (x :: l).
Proof.
  induction l as [|y l IH]; [reflexivity|].
  cbn [insertBy]. destruct (byScoreDesc x y <=? 0)%Z eqn:E; [reflexivity|].
  apply Z.leb_gt in E. unfold byScoreDesc in E.
  cbn [filter] in *. rewrite IH. unfold hasScore.
  destruct (score x =? v)%Z eqn:Ex, (score y =? v)%Z eqn:Ey; try reflexivity.
  apply Z.eqb_eq in Ex, Ey. lia.
Qed.

Lemma sortBy_stable (v : Z) (l : list Candidate) :
  filter (hasScore v) (sortBy byScoreDesc l) = filter (hasScore v) l.
Proof.
  induction l as [|x l IH]; [reflexivity|].
  cbn [sortBy]. rewrite insertBy_stable. cbn [filter]. now rewrite IH.
Qed.

(** An ordered pair of a filtered list is an ordered pair of the list. *)
Lemma filter_split (f : Candidate -> bool) (l x1 x2 x3 : list Candidate)
  (a b : Candidate) :
  filter f l = x1 ++ a :: x2 ++ b :: x3 ->
  exists y1 y2 y3, l = y1 ++ a :: y2 ++ b :: y3.
Proof.
  revert x1. induction l as [|c l IH]; intros x1 H.
  - destruct x1; discriminate.
  - cbn [filter] in H. destruct (f c).
    + destruct x1 as [|d x1].
      * injection H as -> H.
        assert (Hb : In b (filter f l)) by (rewrite H; apply in_elt).
        apply filter_In in Hb. destruct Hb as [Hb _].
        apply in_split in Hb. destruct Hb as [y2 [y3 ->]].
        now exists [], y2, y3.
      * injection H as -> H. destruct (IH _ H) as [y1 [y2 [y3 ->]]].
        now exists (d :: y1), y2, y3.
    + destruct (IH _ H) as [y1 [y2 [y3 ->]]].
      now exists (c :: y1), y2, y3.
Qed.

Lemma split_filter (f : Candidate -> bool) (l1 l2 l3 : list Candidate)
  (a b : Candidate) :
  f a = true -> f b = true ->
  exists x1 x2 x3,
    filter f (l1 ++ a :: l2 ++ b :: l3) = x1 ++ a :: x2 ++ b :: x3.
Proof.
  intros Ha Hb. exists (filter f l1), (filter f l2), (filter f l3).
  rewrite filter_app. cbn [filter]. rewrite Ha, filter_app. cbn [filter].
  now rewrite Hb.
Qed.

End Ranking.

(** ** The orchestrator *)

Section Orchestrator.

Lemma map_split2 (A B : Type) (f : A -> B) (l : list A) (l1 l2 l3 : list B)
  (a b : B) :
  map f l = l1 ++ a :: l2 ++ b :: l3 ->
  exists r1 ca r2 cb r3,
    l = r1 ++ ca :: r2 ++ cb :: r3 /\ f ca = a /\ f cb = b.
Proof.
  intros H.
  apply map_eq_app in H. destruct H as [r1 [r' [-> [_ H]]]].
  apply map_eq_cons in H. destruct H as [ca [r'' [-> [Ha H]]]].
  apply map_eq_app in H. destruct H as [r2 [r''' [-> [_ H]]]].
  apply map_eq_cons in H. destruct H as [cb [r3 [-> [Hb _]]]].
  now exists r1, ca, r2, cb, r3.
Qed.

Lemma StronglySorted_firstn (A : Type) (R : A -> A -> Prop) (n : nat)
  (l : list A) :
  StronglySorted R l -> StronglySorted R (firstn n l).
Proof.
  intros H. revert n. induction H as [|x l Hl IH Hx]; intros [|n]; simpl;
    try constructor.
  - apply IH.
  - rewrite Forall_forall in *. intros y Hy. apply Hx.
    rewrite <- (firstn_skipn n l). apply in_or_app. now left.
Qed.

Lemma In_firstn_In (A : Type) (n : nat) (l : list A) (x : A) :
  In x (firstn n l) -> In x l.
Proof.
  intros H. rewrite <- (firstn_skipn n l). apply in_or_app. now left.
Qed.

Lemma sorted_names (f : text -> Z) (l : list Candidate) :
  (forall c, In c l -> score c = f (name c)) ->
  StronglySorted scoreGe l ->
  StronglySorted (fun a b => (f b <= f a)%Z) (map name l).
Proof.
  intros Hf H. induction H as [|x l Hl IH Hx]; simpl; constructor.
  - apply IH. intros c Hc. apply Hf. now right.
  - rewrite Forall_forall in *. intros n Hn.
    apply in_map_iff in Hn. destruct Hn as [c [<- Hc]].
    rewrite <- (Hf x), <- (Hf c); [apply (Hx c Hc) | now right | now left].
Qed.

Lemma scoreAll_score (cleaned : list text) (l : list Candidate) (c : Candidate) :
  In c (scoreAll cleaned l) -> score c = nameScore cleaned (name c).
Proof.
  unfold scoreAll. intros H. apply in_map_iff in H.
  destruct H as [c0 [<- _]]. reflexivity.
Qed.

Lemma unique_score (fullText : text) (c : Candidate) :
  In c (uniqueCandidates fullText) ->
  score c = nameScore (cleanedLinesOf fullText) (name c).
Proof.
  intros H. apply removeSimilar_from_In in H. destruct H as [[] | H].
  now apply scoreAll_score in H.
Qed.

Lemma ranked_score (fullText : text) (c : Candidate) :
  In c (sortBy byScoreDesc (uniqueCandidates fullText)) ->
  score c = nameScore (cleanedLinesOf fullText) (name c).
Proof.
  intros H. apply unique_score.
  eapply Permutation_in; [symmetry; apply sortBy_perm | exact H].
Qed.

End Orchestrator.

(** C4. The deduplicator is idempotent, and its acceptance rule is the one
    stated: a candidate is discarded exactly when the lowercased text of an
    already accepted candidate is a substring of, contains, or equals its
    own lowercased text; otherwise it is appended to the accepted list. *)
Theorem removeSimilarCandidates_idempotent :
  (forall candidates,
      removeSimilarCandidates (removeSimilarCandidates candidates)
      = removeSimilarCandidates candidates)
  /\
  (forall unique candidate rest,
      let similar :=
        exists existing,
          In existing unique /\
          (substring (toLowerCase (name existing)) (toLowerCase (name candidate))
           \/ substring (toLowerCase (name candidate))
                        (toLowerCase (name existing))
           \/ toLowerCase (name existing) = toLowerCase (name candidate)) in
      (similar ->
       removeSimilar_from unique (candidate :: rest)
       = removeSimilar_from unique rest)
      /\
      (~ similar ->
       removeSimilar_from unique (candidate :: rest)
       = removeSimilar_from (unique ++ [candidate]) rest)).
Proof.
  split.
  - intros candidates. unfold removeSimilarCandidates at 1.
    rewrite removeSimilar_from_id; [reflexivity|].
    apply removeSimilarCandidates_apart.
  - intros unique candidate rest similar. subst similar. cbn [removeSimilar_from].
    destruct (existsb _ unique) eqn:E; split; intros H; try reflexivity.
    + exfalso. apply H. apply existsb_exists in E.
      destruct E as [e [He Hc]]. exists e. split; [assumption|].
      now apply isContained_spec.
    + exfalso. destruct H as [e [He Hc]].
      apply isContained_spec in Hc.
      assert (existsb (fun existing => isContained existing candidate) unique
              = true) by (apply existsb_exists; eauto).
      congruence.
Qed.

(** C1. For every OCR text, the names returned by the orchestrator are at
    most three; they are in descending order of their score; two names of
    equal score stand in the order in which the deduplicator accepted them,
    which is the order in which the candidates were generated; and of two
    entries neither's lowercased text is a substring of the other's. *)
Theorem businessNames_invariant (fullText : text) :
  let names := extractBusinessNamesWithContext fullText in
  let cleaned := cleanedLinesOf fullText in
  length names <= 3
  /\ StronglySorted
       (fun a b => (nameScore cleaned b <= nameScore cleaned a)%Z) names
  /\ (forall l1 a l2 b l3,
         names = l1 ++ a :: l2 ++ b :: l3 ->
         nameScore cleaned a = nameScore cleaned b ->
         exists u1 u2 u3,
           map name (uniqueCandidates fullText) = u1 ++ a :: u2 ++ b :: u3)
  /\ subsequence (uniqueCandidates fullText) (scoredCandidates fullText)
  /\ (forall l1 a l2 b l3,
         names = l1 ++ a :: l2 ++ b :: l3 ->
         ~ substring (toLowerCase a) (toLowerCase b)
         /\ ~ substring (toLowerCase b) (toLowerCase a)).
Proof.
  intros names cleaned. subst names cleaned.
  unfold extractBusinessNamesWithContext.
  set (unique := uniqueCandidates fullText).
  set (sorted := sortBy byScoreDesc unique).
  assert (Hsplit : forall l1 a l2 b l3,
             map name (firstn 3 sorted) = l1 ++ a :: l2 ++ b :: l3 ->
             exists r1 ca r2 cb r3,
               sorted = r1 ++ ca :: r2 ++ cb :: r3
               /\ name ca = a /\ name cb = b).
  { intros l1 a l2 b l3 H. apply map_split2 in H.
    destruct H as [r1 [ca [r2 [cb [r3 [H [Ha Hb]]]]]]].
    exists r1, ca, r2, cb, (r3 ++ skipn 3 sorted). split; [|now split].
    transitivity (firstn 3 sorted ++ skipn 3 sorted);
      [symmetry; apply firstn_skipn|].
    rewrite H, <- app_assoc. cbn [app]. rewrite <- app_assoc. reflexivity. }
  split; [|split; [|split; [|split]]].
  - rewrite length_map, length_firstn. lia.
  - apply sorted_names.
    + intros c Hc. apply ranked_score. now apply In_firstn_In in Hc.
    + apply StronglySorted_firstn, sortBy_sorted.
  - intros l1 a l2 b l3 H Heq.
    destruct (Hsplit _ _ _ _ _ H) as [r1 [ca [r2 [cb [r3 [Hs [Ha Hb]]]]]]].
    assert (Hca : score ca = nameScore (cleanedLinesOf fullText) a).
    { rewrite <- Ha. apply ranked_score. fold unique sorted. rewrite Hs.
      apply in_elt. }
    assert (Hcb : score cb = nameScore (cleanedLinesOf fullText) b).
    { rewrite <- Hb. apply ranked_score. fold unique sorted. rewrite Hs.
      apply in_or_app. right. right. apply in_elt. }
    destruct (@split_filter (hasScore (score ca)) r1 r2 r3 ca cb)
      as [x1 [x2 [x3 Hf]]].
    + apply Z.eqb_refl.
    + unfold hasScore. apply Z.eqb_eq. congruence.
    + rewrite <- Hs in Hf. unfold sorted in Hf. rewrite sortBy_stable in Hf.
      apply filter_split in Hf. destruct Hf as [y1 [y2 [y3 Hu]]].
      exists (map name y1), (map name y2), (map name y3).
      rewrite Hu, map_app. cbn [map]. rewrite map_app. cbn [map].
      now rewrite Ha, Hb.
  - apply removeSimilarCandidates_subsequence.
  - intros l1 a l2 b l3 H.
    destruct (Hsplit _ _ _ _ _ H) as [r1 [ca [r2 [cb [r3 [Hs [<- <-]]]]]]].
    apply apart_not_substring.
    apply (@FOP_split _ apart r1 r2 r3). rewrite <- Hs.
    apply FOP_perm with (l := unique).
    + apply apart_sym.
    + apply sortBy_perm.
    + apply removeSimilarCandidates_apart.
Qed.

(** ** The position handed to the scorer *)

Section Position.

Lemma indexOf_from_not_found (arr : list text) (x : text) (i : Z) :
  ~ In x arr -> indexOf_from arr x i = (-1)%Z.
Proof.
  revert i. induction arr as [|y arr IH]; intros i H; simpl; [reflexivity|].
  destruct (text_eqb y x) eqn:E.
  - apply text_eqb_true in E. exfalso. apply H. now left.
  - apply IH. intros Hin. apply H. now right.
Qed.

Lemma indexOf_from_found (arr : list text) (x : text) (i : Z) :
  In x arr ->
  exists k, k < length arr /\ nth k arr [] = x
            /\ (forall j, j < k -> nth j arr [] <> x)
            /\ indexOf_from arr x i = (i + Z.of_nat k)%Z.
Proof.
  revert i. induction arr as [|y arr IH]; intros i H; [contradiction|].
  simpl. destruct (text_eqb y x) eqn:E.
  - apply text_eqb_true in E. exists 0. repeat split; simpl; try lia; auto.
  - apply text_eqb_false in E. destruct H as [H | H]; [contradiction|].
    destruct (IH (i + 1)%Z H) as [k [Hk [Hn [Hfirst Hi]]]].
    exists (S k). repeat split; simpl; try lia; auto.
    intros [|j] Hj; [assumption | apply Hfirst; lia].
Qed.

(** The scorer is called with the index of the candidate's first word among
    the filtered lines when that word is one of them... *)
Lemma firstWordIndex_found (cleanedLines : list text) (n : text) :
  In (firstWord n) cleanedLines ->
  exists k, k < length cleanedLines
            /\ nth k cleanedLines [] = firstWord n
            /\ (forall j, j < k -> nth j cleanedLines [] <> firstWord n)
            /\ firstWordIndex cleanedLines n = Z.of_nat k.
Proof.
  intros H. destruct (@indexOf_from_found cleanedLines (firstWord n) 0%Z H) as [k Hk].
  exists k. unfold firstWordIndex, indexOf. intuition.
Qed.

(** ... and with [-1] when it is not, which the scorer turns into eleven
    points. *)
Lemma firstWordIndex_not_found (cleanedLines : list text) (n : text) :
  ~ In (firstWord n) cleanedLines ->
  firstWordIndex cleanedLines n = (-1)%Z
  /\ positionScore (firstWordIndex cleanedLines n) = 11%Z.
Proof.
  intros H. unfold firstWordIndex, indexOf.
  rewrite indexOf_from_not_found by assumption. now split.
Qed.

End Position.

(** C2. The scorer receives [cleanedLines.indexOf(firstWord)]; on the
    one-line text "Joe's Coffee" the context generator emits the line, whose
    first word "Joe's" is no line of its own, so the position is [-1] (not
    [0]) and the position component is [11] (not [10]). *)
Theorem position_not_found_is_minus_one :
  let fullText := str "Joe's Coffee" in
  let cleaned := cleanedLinesOf fullText in
  let candidate := str "Joe's Coffee" in
  cleaned = [str "Joe's Coffee"]
  /\ In candidate (extractWithBusinessContext cleaned)
  /\ In candidate (map name (scoredCandidates fullText))
  /\ firstWord candidate = str "Joe's"
  /\ ~ In (firstWord candidate) cleaned
  /\ firstWordIndex cleaned candidate = (-1)%Z
  /\ positionScore (firstWordIndex cleaned candidate) = 11%Z
  /\ positionScore 0 = 10%Z.
Proof.
  cbv zeta. repeat split; try (vm_compute; reflexivity).
  - vm_compute. now left.
  - vm_compute. now left.
  - vm_compute. intros [H | []]. discriminate.
Qed.

(** ** The positional generator *)

Section Positional.

Lemma in_when (A : Type) (b : bool) (x y : A) :
  In y (when b x) <-> b = true /\ y = x.
Proof.
  unfold when. destruct b; simpl; split.
  - intros [<- | []]. now split.
  - intros [_ ->]. now left.
  - contradiction.
  - intros [H _]. discriminate.
Qed.

(** What the generator pushes for one start index. *)
Lemma in_positionalAt (lines : list text) (i : nat) (c : text) :
  In c (positionalAt lines i) <->
  let l0 := nth i lines [] in
  let l1 := nth (i + 1) lines [] in
  let l2 := nth (i + 2) lines [] in
  (c = l0 /\ 4 <= length l0 <= 15)
  \/ (i + 1 < length lines /\ c = l0 ++ str " " ++ l1 /\ length c <= 30)
  \/ (i + 2 < length lines
      /\ c = l0 ++ str " " ++ l1 ++ str " " ++ l2 /\ length c <= 40).
Proof.
  cbv zeta. unfold positionalAt. rewrite !in_app_iff.
  destruct (Nat.ltb_spec i (length lines - 1)) as [E1 | E1];
    destruct (Nat.ltb_spec i (length lines - 2)) as [E2 | E2];
    rewrite ?in_when, ?andb_true_iff, ?Nat.leb_le;
    cbn [In]; split; intros H;
    repeat match goal with
           | H : _ \/ _ |- _ => destruct H
           | H : _ /\ _ |- _ => destruct H
           | H : False |- _ => contradiction
           end; subst;
    try lia;
    try (left; repeat split; (assumption || lia));
    try (right; left; repeat split; (assumption || lia));
    try (right; right; repeat split; (assumption || lia)).
Qed.

Lemma in_join (sep : text) (pieces : list text) (ch : ascii) :
  In ch (join sep pieces) ->
  In ch sep \/ exists piece, In piece pieces /\ In ch piece.
Proof.
  induction pieces as [|x rest IH]; [contradiction|].
  destruct rest as [|y rest].
  - simpl. intros H. right. exists x. auto.
  - change (join sep (x :: y :: rest)) with (x ++ sep ++ join sep (y :: rest)).
    rewrite !in_app_iff. intros [H | [H | H]].
    + right. exists x. split; [now left | assumption].
    + now left.
    + destruct (IH H) as [Hs | [piece [Hp Hc]]]; [now left|].
      right. exists piece. split; [now right | assumption].
Qed.

End Positional.

(** C3, as stated, fails: with seven four-letter lines the generator emits
    "eeee ffff", which joins the fifth line with the sixth and is no
    concatenation of lines taken among the first five. *)
Lemma positional_reaches_past_five :
  ~ (forall lines c,
        In c (extractWithPositionalWeighting lines) ->
        exists pieces,
          incl pieces (firstn (Nat.min 5 (length lines)) lines)
          /\ c = join (str " ") pieces).
Proof.
  intros H.
  destruct (H sevenLines (str "eeee ffff")) as [pieces [Hincl Heq]].
  - vm_compute. do 13 right. now left.
  - assert (Hf : In "f"%char (join (str " ") pieces)).
    { rewrite <- Heq. vm_compute. do 5 right. now left. }
    apply in_join in Hf. destruct Hf as [Hf | [piece [Hp Hf]]].
    + vm_compute in Hf. destruct Hf as [Hf | []]. discriminate.
    + apply Hincl in Hp. vm_compute in Hp.
      repeat (destruct Hp as [<- | Hp];
              [vm_compute in Hf; intuition discriminate|]).
      contradiction.
Qed.

(** C3, amended. A candidate is emitted by the positional generator exactly
    when, for a start index [i] among the first [min(lineCount, 5)] lines, it
    is line [i] itself with a length within [4,15], or the concatenation of
    lines [i] and [i+1] when a next line exists and the combined length is
    at most 30, or the concatenation of lines [i], [i+1] and [i+2] when two
    further lines exist and the combined length is at most 40.  Only the
    start index is confined to the first five lines. *)
Theorem positional_candidates (lines : list text) (c : text) :
  In c (extractWithPositionalWeighting lines) <->
  exists i,
    i < Nat.min (length lines) 5 /\
    let l0 := nth i lines [] in
    let l1 := nth (i + 1) lines [] in
    let l2 := nth (i + 2) lines [] in
    (c = l0 /\ 4 <= length l0 <= 15)
    \/ (i + 1 < length lines /\ c = l0 ++ str " " ++ l1 /\ length c <= 30)
    \/ (i + 2 < length lines
        /\ c = l0 ++ str " " ++ l1 ++ str " " ++ l2 /\ length c <= 40).
Proof.
  unfold extractWithPositionalWeighting. rewrite in_flat_map. split.
  - intros [i [Hi Hc]]. apply in_seq in Hi. exists i. split; [lia|].
    now apply in_positionalAt.
  - intros [i [Hi Hc]]. exists i. split; [apply in_seq; lia|].
    now apply in_positionalAt.
Qed.

(** ** The confidence estimator *)

Section ConfidenceEstimator.

Lemma getLevel_cases (x : float) :
  (getLevel x = High <-> (0.7 <? x)%float = true)
  /\ (getLevel x = Medium <->
      (0.7 <? x)%float = false /\ (0.5 <? x)%float = true)
  /\ (getLevel x = Low <->
      (0.7 <? x)%float = false /\ (0.5 <? x)%float = false).
Proof.
  unfold getLevel.
  destruct (0.7 <? x)%float, (0.5 <? x)%float; intuition congruence.
Qed.

End ConfidenceEstimator.

(** C5. For every detection list and business-name list the composite
    score is the base 0.5 plus the five conditional additions, clamped to
    0.95, in binary64 arithmetic; it is within [2^-52] of the same sum taken
    exactly; it lies in [0.5, 0.95]; the three levels are [level(s)],
    [level(s * 0.8)] and [level(s * 0.7)], where [level] is High above 0.7,
    Medium above 0.5 and Low otherwise; and rounding never changes a level. *)
Theorem smart_confidence (detections : list Detection) (names : list text) :
  let nD := length detections in
  let nN := length names in
  let nW := length (wordsOf (fullTextOf detections)) in
  let s := finalConfidence detections names in
  let c := calculateSmartConfidence detections names in
  s = specConfidence nD nN nW
  /\ (Qabs (realValue s - exactConfidence nD nN nW) <= 1 # 2 ^ 52)%Q
  /\ (0.5 <=? s)%float = true
  /\ (s <=? 0.95)%float = true
  /\ businessName c = getLevel s
  /\ address c = getLevel (s * 0.8)%float
  /\ phone c = getLevel (s * 0.7)%float
  /\ (forall x,
         (getLevel x = High <-> (0.7 <? x)%float = true)
         /\ (getLevel x = Medium <->
             (0.7 <? x)%float = false /\ (0.5 <? x)%float = true)
         /\ (getLevel x = Low <->
             (0.7 <? x)%float = false /\ (0.5 <? x)%float = false))
  /\ businessName c = exactLevel (exactConfidence nD nN nW)
  /\ address c = exactLevel (exactConfidence nD nN nW * (8 # 10))%Q
  /\ phone c = exactLevel (exactConfidence nD nN nW * (7 # 10))%Q.
Proof.
  cbv zeta.
  unfold calculateSmartConfidence, finalConfidence, specConfidence,
    exactConfidence.
  cbn [businessName address phone].
  destruct (5 <? length detections)%nat, (10 <? length detections)%nat,
    (0 <? length names)%nat, (1 <? length names)%nat,
    (5 <=? length (wordsOf (fullTextOf detections)))%nat;
    (split; [vm_compute; reflexivity|]);
    (split; [apply Qle_bool_imp_le; vm_compute; reflexivity|]);
    (do 5 (split; [vm_compute; reflexivity|]));
    (split; [exact getLevel_cases|]);
    repeat split; vm_compute; reflexivity.
Qed.

(** ** Texts whose lines are all filtered *)

Section NoLines.

Lemma generators_nil :
  extractWithBusinessContext [] = []
  /\ extractWithPositionalWeighting [] = []
  /\ extractWithPatternMatching [] = [].
Proof. repeat split. Qed.

Lemma no_lines_no_names (fullText : text) :
  cleanedLinesOf fullText = [] ->
  extractBusinessNamesWithContext fullText = [].
Proof.
  intros H. unfold extractBusinessNamesWithContext, uniqueCandidates,
    scoredCandidates. rewrite H. reflexivity.
Qed.

End NoLines.

(** C6, as stated, fails: the seven annotations of a digits-only sign leave
    no filtered line and no business name, yet the detection count and the
    word count raise the score to 0.7 and the level to Medium. *)
Lemma no_lines_yet_medium :
  ~ (forall detections,
        detections <> [] ->
        cleanedLinesOf (fullTextOf detections) = [] ->
        let cleaned := cleanedLinesOf (fullTextOf detections) in
        extractWithBusinessContext cleaned = []
        /\ extractWithPositionalWeighting cleaned = []
        /\ extractWithPatternMatching cleaned = []
        /\ exists r,
            extractTextWithEnhancedVision detections = Some r
            /\ businessNames r = []
            /\ businessName (confidence r) = Low).
Proof.
  intros H.
  destruct (H digitsOnlySign) as [_ [_ [_ [r [Hr [_ Hlow]]]]]].
  - discriminate.
  - vm_compute. reflexivity.
  - vm_compute in Hr. injection Hr as <-. discriminate.
Qed.

(** C6, amended. When every line of the OCR text is filtered, the three
    generators return the empty sequence and the business names are empty;
    the business-name level is Low exactly when, in addition, there are at
    most 5 detections and fewer than 5 words in the full text. *)
Theorem no_lines_confidence (detections : list Detection) :
  detections <> [] ->
  cleanedLinesOf (fullTextOf detections) = [] ->
  let cleaned := cleanedLinesOf (fullTextOf detections) in
  extractWithBusinessContext cleaned = []
  /\ extractWithPositionalWeighting cleaned = []
  /\ extractWithPatternMatching cleaned = []
  /\ exists r,
      extractTextWithEnhancedVision detections = Some r
      /\ businessNames r = []
      /\ (businessName (confidence r) = Low <->
          length detections <= 5
          /\ length (wordsOf (fullTextOf detections)) < 5).
Proof.
  intros Hne Hnil. cbv zeta. rewrite Hnil.
  split; [reflexivity | split; [reflexivity | split; [reflexivity|]]].
  destruct detections as [|d rest]; [congruence|].
  eexists. split; [reflexivity|]. cbn [businessNames confidence].
  rewrite (no_lines_no_names _ Hnil). split; [reflexivity|].
  unfold calculateSmartConfidence, finalConfidence. cbn [businessName].
  change (0 <? length (@nil text)) with false.
  change (1 <? length (@nil text)) with false. cbv iota.
  destruct (Nat.ltb_spec 5 (length (d :: rest))) as [H5 | H5];
    destruct (Nat.ltb_spec 10 (length (d :: rest))) as [H10 | H10];
    destruct (Nat.leb_spec 5 (length (wordsOf (fullTextOf (d :: rest)))))
      as [Hw | Hw];
    split; intros H; try lia; try (vm_compute in H; discriminate);
    try (vm_compute; reflexivity); try (split; lia).
Qed.

Lemma no_lines_confidence_witness :
  extractWithBusinessContext (cleanedLinesOf (fullTextOf shortSign)) = []
  /\ extractWithPositionalWeighting (cleanedLinesOf (fullTextOf shortSign)) = []
  /\ extractWithPatternMatching (cleanedLinesOf (fullTextOf shortSign)) = []
  /\ exists r,
      extractTextWithEnhancedVision shortSign = Some r
      /\ businessNames r = []
      /\ (businessName (confidence r) = Low <->
          length shortSign <= 5
          /\ length (wordsOf (fullTextOf shortSign)) < 5).
Proof.
  apply (@no_lines_confidence shortSign).
  - discriminate.
  - vm_compute. reflexivity.
Defined.

(** ** The confirmation gate *)

Import Generator.

(** C8. The gate asks for confirmation exactly when the business-name
    level is Low, or there is no business name, or the lowercased first
    name contains one of "business", "company", "store", "shop" and that
    lowercased name is shorter than 10 characters; otherwise [processImage]
    continues with the first business name. *)
Theorem confirmation_gate (textData : ExtractedText) :
  (shouldRequestConfirmation textData = true <->
   businessName (confidence textData) = Low
   \/ businessNames textData = []
   \/ exists first rest,
       businessNames textData = first :: rest
       /\ (exists generic,
              In generic [str "business"; str "company"; str "store";
                          str "shop"]
              /\ substring generic (toLowerCase first))
       /\ length (toLowerCase first) < 10)
  /\ (processImage textData = Confirmation <->
      shouldRequestConfirmation textData = true)
  /\ (shouldRequestConfirmation textData = false ->
      exists first rest,
        businessNames textData = first :: rest
        /\ processImage textData = ContinueProcessing (Some first)).
Proof.
  unfold processImage, shouldRequestConfirmation, firstBusinessName.
  destruct textData as [names ? ? ? ? ? [lvl ? ?]].
  cbn [businessNames confidence businessName].
  assert (Hgen : forall first,
             existsb (fun generic => includes (toLowerCase first) generic)
                     genericNames = true <->
             exists generic,
               In generic [str "business"; str "company"; str "store";
                           str "shop"]
               /\ substring generic (toLowerCase first)).
  { intros first. rewrite existsb_exists. split.
    - intros [g [Hg Hi]]. exists g. split; [exact Hg | now apply includes_spec].
    - intros [g [Hg Hs]]. exists g. split; [exact Hg | now apply includes_spec]. }
  destruct lvl; cbn [level_eqb];
    try (split; [split; [intros _; now left | reflexivity]
                | split; [split; reflexivity | discriminate]]).
  all: destruct names as [|first rest]; cbn [length Nat.eqb nth_error];
    try (split; [split; [intros _; right; now left | reflexivity]
                | split; [split; reflexivity | discriminate]]).
  all: destruct (existsb _ genericNames) eqn:Eg;
    destruct (Nat.ltb_spec (length (toLowerCase first)) 10) as [Hl | Hl];
    cbn [andb].
  all: split; [split|split; [split|]]; try reflexivity; try discriminate;
    try (intros _; right; right; exists first, rest;
         split; [reflexivity | split; [now apply Hgen | assumption]]);
    try (intros _; exists first, rest; now split).
  all: intros [H | [H | [f [r [H [Hg' Hlen]]]]]]; try discriminate;
    injection H as <- <-; try lia.
  all: apply Hgen in Hg'; congruence.
Qed.

(** ** The places search *)

Section PlacesSearch.

Import Places.

Variable repeatThrows : Json -> bool.
Variable apiKey : option text.
Variable textSearch : text -> Fetched SearchData.
Variable placeDetails : option Json -> Fetched DetailsData.
Variable businessName : text.
Variable address : option text.
Variable bestMatch : PlacesResult.

Hypothesis search_ok :
  searchSucceeds apiKey textSearch businessName address bestMatch.

(** What is left of the [try] block once the text search has succeeded:
    the log of the results, then the details request. *)
Lemma searchBusinessBody_after_search :
  exists data rest,
    textSearch (buildQuery businessName address) = Responded true (Some data)
    /\ results data = Some (bestMatch :: rest)
    /\ searchBusinessBody repeatThrows apiKey textSearch placeDetails
         businessName address =
       (logged <- forEach logSearchResult (bestMatch :: rest) ;;
        detailsResponse <- awaitFetch (placeDetails (place_id bestMatch)) ;;
        if negb (fst detailsResponse)
        then Return (Some (fallbackResult bestMatch))
        else
          detailsData <- awaitJson (snd detailsResponse) ;;
          if negb (text_eqb (details_status detailsData) (str "OK"))
          then Return (Some bestMatch)
          else match result detailsData with
               | Some r => logged <- logDetails repeatThrows r ;;
                           Return (Some r)
               | None => Throw
               end).
Proof.
  destruct search_ok as [Hkey [data [rest [Hs [Hstatus Hres]]]]].
  exists data, rest. split; [assumption | split; [assumption|]].
  unfold searchBusinessBody. rewrite Hkey, Hs. cbn [negb awaitFetch bind fst snd
    awaitJson]. rewrite Hstatus, Hres.
  replace (text_eqb (str "OK") (str "OK")) with true
    by (symmetry; now apply text_eqb_true).
  reflexivity.
Qed.

(** Once the results have been logged, a details response that is not
    [ok] is replaced by the basic fields of the best match. *)
Lemma details_not_ok_falls_back (json : option DetailsData) :
  (forall data rest,
      textSearch (buildQuery businessName address)
      = Responded true (Some data) ->
      results data = Some (bestMatch :: rest) ->
      forEach logSearchResult (bestMatch :: rest) = Return tt) ->
  placeDetails (place_id bestMatch) = Responded false json ->
  searchBusiness repeatThrows apiKey textSearch placeDetails businessName
    address
  = Some (fallbackResult bestMatch)
  /\ sameBasicFields (fallbackResult bestMatch) bestMatch.
Proof.
  intros Hlog H. unfold searchBusiness.
  destruct searchBusinessBody_after_search as [data [rest [Hs [Hr ->]]]].
  rewrite (Hlog data rest Hs Hr), H. split; [reflexivity|].
  repeat split.
Qed.

(** Once the results have been logged, a details body whose status is not
    [OK] is replaced by the best match itself. *)
Lemma details_status_not_ok_falls_back (d : DetailsData) :
  (forall data rest,
      textSearch (buildQuery businessName address)
      = Responded true (Some data) ->
      results data = Some (bestMatch :: rest) ->
      forEach logSearchResult (bestMatch :: rest) = Return tt) ->
  placeDetails (place_id bestMatch) = Responded true (Some d) ->
  details_status d <> str "OK" ->
  searchBusiness repeatThrows apiKey textSearch placeDetails businessName
    address
  = Some bestMatch.
Proof.
  intros Hlog H Hd. unfold searchBusiness.
  destruct searchBusinessBody_after_search as [data [rest [Hs [Hr ->]]]].
  rewrite (Hlog data rest Hs Hr), H.
  cbn [awaitFetch bind fst snd negb awaitJson].
  apply text_eqb_false in Hd. now rewrite Hd.
Qed.

(** A details request that is rejected, or whose body cannot be read, is
    caught by the outer [catch]: the whole search returns [null]. *)
Lemma details_rejected_returns_null :
  placeDetails (place_id bestMatch) = Rejected ->
  searchBusiness repeatThrows apiKey textSearch placeDetails businessName
    address = None.
Proof.
  intros H. unfold searchBusiness.
  destruct searchBusinessBody_after_search as [data [rest [_ [_ ->]]]].
  destruct (forEach logSearchResult (bestMatch :: rest)) as [[]|];
    cbn [bind]; [|reflexivity].
  now rewrite H.
Qed.

Lemma details_unreadable_returns_null :
  placeDetails (place_id bestMatch) = Responded true None ->
  searchBusiness repeatThrows apiKey textSearch placeDetails businessName
    address = None.
Proof.
  intros H. unfold searchBusiness.
  destruct searchBusinessBody_after_search as [data [rest [_ [_ ->]]]].
  destruct (forEach logSearchResult (bestMatch :: rest)) as [[]|];
    cbn [bind]; [|reflexivity].
  now rewrite H.
Qed.

End PlacesSearch.

(** C9. The text search succeeds with one result and the details request
    is rejected (a transport failure): the error reaches the outer [catch]
    and [searchBusiness] returns [null], not a record built from the best
    match. *)
Theorem details_rejection_fails_search
  (repeatThrows : Places.Json -> bool) :
  let apiKey := Some (str "key") in
  let query := str "Joe's Coffee" in
  Places.searchSucceeds apiKey oneResult query None joesPlace
  /\ Places.detailsFailed (detailsUnreachable (Places.place_id joesPlace))
  /\ Places.searchBusiness repeatThrows apiKey oneResult detailsUnreachable
       query None
     = None.
Proof.
  cbv zeta.
  assert (Hs : Places.searchSucceeds (Some (str "key")) oneResult
                 (str "Joe's Coffee") None joesPlace).
  { split; [reflexivity|]. eexists. exists []. repeat split. }
  split; [exact Hs | split; [exact I|]].
  now apply details_rejected_returns_null with (bestMatch := joesPlace).
Qed.

(** ** Regular-expression matching *)

Section RegexFacts.

Lemma run_le_length (p : ascii -> bool) (s : text) : run p s <= length s.
Proof.
  induction s as [|c t IH]; simpl; [lia|]. destruct (p c); simpl; lia.
Qed.

Lemma run_prefix (p : ascii -> bool) (s : text) (n : nat) :
  n <= run p s -> Forall (fun c => p c = true) (firstn n s).
Proof.
  revert n. induction s as [|c t IH]; intros n Hn.
  - rewrite firstn_nil. constructor.
  - destruct n as [|n]; [constructor|]. simpl in *.
    destruct (p c) eqn:E; [|lia]. constructor; [assumption|].
    apply IH. lia.
Qed.

Lemma run_max (p : ascii -> bool) (w rest : text) :
  Forall (fun c => p c = true) w -> length w <= run p (w ++ rest).
Proof.
  induction 1 as [|c w Hc Hw IH]; simpl; [lia|]. rewrite Hc. lia.
Qed.

Lemma in_rev_seq (lo len n : nat) :
  In n (rev (seq lo len)) <-> lo <= n < lo + len.
Proof. rewrite <- in_rev. apply in_seq. Qed.

Lemma skipn_app_length (w rest : text) : skipn (length w) (w ++ rest) = rest.
Proof. induction w; simpl; auto. Qed.

Lemma firstn_app_length (w rest : text) : firstn (length w) (w ++ rest) = w.
Proof. induction w; simpl; [reflexivity | now f_equal]. Qed.

Lemma app_same_length (w e s : text) :
  s = w ++ e -> length e = length s -> w = [].
Proof.
  intros -> H. rewrite length_app in H. destruct w; [reflexivity|].
  simpl in H. lia.
Qed.

(** [ends] lists exactly the remainders left by the words of the
    expression. *)
Lemma ends_spec (r : regex) (s e : text) :
  In e (ends r s) <-> exists w, s = w ++ e /\ lang r w.
Proof.
  revert s e.
  induction r as [| p | p lo hi | r1 IH1 r2 IH2 | r1 IH1 r2 IH2 | r1 IH1];
    intros s e; cbn [ends lang].
  - split.
    + intros [<- | []]. now exists [].
    + intros [w [-> ->]]. now left.
  - destruct s as [|c t].
    + split; [contradiction|]. intros [w [H [c [-> _]]]]. discriminate.
    + destruct (p c) eqn:E; split.
      * intros [<- | []]. exists [c]. split; [reflexivity|]. now exists c.
      * intros [w [H [c' [-> _]]]]. injection H as _ ->. now left.
      * contradiction.
      * intros [w [H [c' [-> Hp]]]]. injection H as <- _. congruence.
  - rewrite in_map_iff. split.
    + intros [n [<- Hn]]. apply in_rev_seq in Hn.
      assert (Hk : n <= cap hi (run p s)) by lia.
      assert (Hr : n <= run p s) by (destruct hi; simpl in Hk; lia).
      pose proof (run_le_length p s) as Hlen.
      exists (firstn n s). split; [now rewrite firstn_skipn|].
      rewrite length_firstn.
      split; [now apply run_prefix|]. split; [lia|].
      destruct hi; simpl in Hk; [lia | exact I].
    + intros [w [-> [Hp [Hlo Hhi]]]]. exists (length w).
      split; [apply skipn_app_length|]. apply in_rev_seq.
      pose proof (@run_max p w e Hp) as Hr.
      destruct hi; unfold cap; lia.
  - rewrite in_flat_map. split.
    + intros [m [Hm He]]. apply IH1 in Hm. apply IH2 in He.
      destruct Hm as [u [-> Hu]]. destruct He as [v [-> Hv]].
      exists (u ++ v). split; [now rewrite app_assoc|]. now exists u, v.
    + intros [w [-> [u [v [-> [Hu Hv]]]]]]. exists (v ++ e). split.
      * apply IH1. exists u. split; [now rewrite app_assoc | assumption].
      * apply IH2. now exists v.
  - rewrite in_app_iff, IH1, IH2. split.
    + intros [[w [H Hw]] | [w [H Hw]]]; exists w; auto.
    + intros [w [H [Hw | Hw]]]; [left | right]; now exists w.
  - rewrite in_app_iff, filter_In, IH1. cbn [In]. split.
    + intros [[[w [H Hw]] _] | [<- | []]].
      * exists w. auto.
      * exists []. auto.
    + intros [w [H [-> | Hw]]].
      * right. left. now rewrite H.
      * destruct (Nat.eqb_spec (length e) (length s)) as [El | El].
        -- right. left. assert (w = []) by (eapply app_same_length; eauto).
           subst w. now rewrite H.
        -- left. split; [now exists w | reflexivity].
Qed.

Lemma filter_all (A : Type) (l : list A) : filter (fun _ => true) l = l.
Proof. induction l; simpl; congruence. Qed.

Lemma match_here_unanchored (r : regex) (s : text) :
  match_here (Pattern false r false) s =
  match ends r s with
  | e :: _ => Some (length s - length e)
  | [] => None
  end.
Proof. unfold match_here. cbn [eol body negb orb]. now rewrite filter_all. Qed.

(** A match found at the start of [s] is a word of the expression. *)
Lemma match_here_some (r : regex) (s : text) (n : nat) :
  match_here (Pattern false r false) s = Some n ->
  exists rest, s = firstn n s ++ rest /\ lang r (firstn n s)
               /\ length (firstn n s) = n /\ rest = skipn n s.
Proof.
  rewrite match_here_unanchored. destruct (ends r s) as [|e l] eqn:E;
    [discriminate|].
  intros H. injection H as <-.
  assert (He : In e (ends r s)) by (rewrite E; now left).
  apply ends_spec in He. destruct He as [w [-> Hw]].
  rewrite length_app.
  replace (length w + length e - length e) with (length w) by lia.
  rewrite firstn_app_length, skipn_app_length. now exists e.
Qed.

(** No match at the start of [s] means no word of the expression is a
    prefix of [s]. *)
Lemma match_here_none (r : regex) (s : text) :
  match_here (Pattern false r false) s = None -> ~ matches_at r s.
Proof.
  rewrite match_here_unanchored. destruct (ends r s) as [|e l] eqn:E;
    [|discriminate].
  intros _ [w [rest [H Hw]]].
  assert (He : In rest (ends r s)) by (apply ends_spec; now exists w).
  now rewrite E in He.
Qed.

Lemma nullable_spec (r : regex) : lang r [] -> nullable r = true.
Proof.
  induction r as [| p | p lo hi | r1 IH1 r2 IH2 | r1 IH1 r2 IH2 | r1 IH1];
    cbn [lang nullable]; auto.
  - intros [c [H _]]. discriminate.
  - intros [_ [H _]]. simpl in H. apply Nat.eqb_eq. lia.
  - intros [u [v [H [Hu Hv]]]]. symmetry in H. apply app_eq_nil in H.
    destruct H as [-> ->]. now rewrite IH1, IH2.
  - intros [H | H]; [rewrite IH1 | rewrite IH2]; auto using orb_true_r.
Qed.

Lemma matchAll_from_skip (r : regex) (skip : nat) (s : text) :
  skip <= length s ->
  matchAll_from r s skip = matchAll_from r (skipn skip s) 0.
Proof.
  revert s. induction skip as [|k IH]; intros s H; [reflexivity|].
  destruct s as [|c t]; simpl in H; [lia|].
  cbn [matchAll_from skipn]. destruct t; apply IH; simpl in *; lia.
Qed.

Lemma scan_cons (r : regex) (c : ascii) (t : text) (ms : list text) :
  ~ matches_at r (c :: t) -> scan r t ms -> scan r (c :: t) ms.
Proof.
  intros Hno H. inversion H as [r0 s Hocc | r0 gap m rest ms' Hgap Hm Hne Hrest];
    subst.
  - apply scan_done. intros [pre [w [post [Heq Hw]]]].
    destruct pre as [|c' pre].
    + apply Hno. now exists w, post.
    + injection Heq as _ Heq. apply Hocc. now exists pre, w, post.
  - change (c :: gap ++ m ++ rest) with ((c :: gap) ++ m ++ rest).
    apply scan_hit; try assumption.
    intros g1 g2 Hg Hg2. destruct g1 as [|c' g1].
    + simpl in Hg. subst g2. exact Hno.
    + injection Hg as _ Hg. now apply Hgap with (g1 := g1).
Qed.

(** The global scan returns the matches of a non-nullable expression as
    [scan] requires. *)
Lemma matchAll_scan (r : regex) :
  nullable r = false -> forall s, scan r s (matchAll r s).
Proof.
  intros Hnull.
  assert (Hne : forall w, lang r w -> w <> []).
  { intros w Hw ->. apply nullable_spec in Hw. congruence. }
  unfold matchAll.
  assert (H : forall n s, length s <= n -> scan r s (matchAll_from r s 0)).
  { induction n as [|n IH]; intros s Hlen.
    - destruct s; [|simpl in Hlen; lia]. cbn [matchAll_from].
      destruct (match_here _ []) as [k|] eqn:E.
      + apply match_here_some in E. destruct E as [rest [_ [Hw _]]].
        rewrite firstn_nil in Hw. now apply Hne in Hw.
      + apply scan_done. intros [pre [w [post [Heq Hw]]]].
        symmetry in Heq. apply app_eq_nil in Heq. destruct Heq as [_ Heq].
        apply app_eq_nil in Heq. destruct Heq as [-> _]. now apply Hne in Hw.
    - destruct s as [|c t].
      { apply IH. simpl. lia. }
      cbn [matchAll_from].
      destruct (match_here _ (c :: t)) as [k|] eqn:E.
      + apply match_here_some in E.
        destruct E as [rest [Heq [Hw [Hk Hrest]]]].
        pose proof (Hne _ Hw) as Hw0.
        destruct k as [|k]; [now rewrite firstn_O in Hw0|].
        assert (Hkt : k <= length t).
        { rewrite length_firstn in Hk. simpl in Hk. lia. }
        cbn [Nat.pred]. rewrite (@matchAll_from_skip r k t Hkt).
        change (skipn k t) with (skipn (S k) (c :: t)). rewrite <- Hrest.
        rewrite Heq at 1.
        apply (@scan_hit r [] (firstn (S k) (c :: t)) rest); try assumption.
        * intros g1 g2 Hg Hg2. destruct g1; simpl in Hg; congruence.
        * apply IH.
          assert (Hl : length (c :: t)
                       = length (firstn (S k) (c :: t)) + length rest)
            by (rewrite <- length_app; now rewrite <- Heq).
          rewrite Hk in Hl. simpl in *. lia.
      + apply match_here_none in E. apply scan_cons; [assumption|].
        apply IH. simpl in Hlen. lia. }
  intros s. now apply (H (length s)).
Qed.

Lemma scan_nil_no_occurrence (r : regex) (s : text) :
  scan r s [] -> ~ occurs r s.
Proof. intros H. now inversion H. Qed.

Lemma no_occurrence_matchAll (r : regex) (s : text) :
  nullable r = false -> ~ occurs r s -> matchAll r s = [].
Proof.
  intros Hnull Hno. pose proof (@matchAll_scan r Hnull s) as H.
  destruct (matchAll r s) as [|m ms]; [reflexivity|].
  inversion H as [|r0 gap m0 rest ms0 _ Hm _ _]; subst.
  exfalso. apply Hno. now exists gap, m, rest.
Qed.

Lemma occurrence_matchAll (r : regex) (s : text) :
  nullable r = false -> occurs r s -> matchAll r s <> [].
Proof.
  intros Hnull Hocc E. pose proof (@matchAll_scan r Hnull s) as H.
  rewrite E in H. now apply scan_nil_no_occurrence in H.
Qed.

(** The matches come back in order of appearance and do not overlap: the
    text is the matches, in order, with gaps around them. *)
Lemma scan_in_order (r : regex) (s : text) (ms : list text) :
  scan r s ms ->
  exists gaps last,
    length gaps = length ms
    /\ s = concat (map (fun gm => fst gm ++ snd gm) (combine gaps ms)) ++ last.
Proof.
  induction 1 as [r s Hno | r gap m rest ms Hgap Hm Hne Hrest IH].
  - now exists [], s.
  - destruct IH as [gaps [last [Hlen Heq]]].
    exists (gap :: gaps), last. split; [simpl; congruence|].
    cbn [combine map concat fst snd]. rewrite Heq at 1.
    now rewrite <- !app_assoc.
Qed.

End RegexFacts.

(** ** The field extractors *)

Section FieldExtractors.

Lemma extractor_regexes_not_nullable :
  nullable addressRegex = false /\ nullable phoneRegex = false
  /\ nullable websiteRegex = false /\ nullable emailRegex = false.
Proof. repeat split. Qed.

(** A text wholly matched by an expression is one of its words. *)
Lemma whole_match_lang (r : regex) (s : text) :
  In [] (ends r s) -> lang r s.
Proof.
  intros H. apply ends_spec in H. destruct H as [w [-> Hw]].
  now rewrite app_nil_r.
Qed.

Lemma lang_seq (r1 r2 : regex) (u v : text) :
  lang r1 u -> lang r2 v -> lang (Seq r1 r2) (u ++ v).
Proof. intros Hu Hv. now exists u, v. Qed.

(** A host label of three characters followed by a dot and letters is a
    word of the website expression. *)
Lemma website_word (a b c : ascii) (tld : text) :
  is_alnum a = true -> (is_alnum b || is_char "-" b) = true ->
  is_alnum c = true ->
  Forall (fun x => is_letter x = true) tld -> 2 <= length tld ->
  lang websiteRegex ([a; b; c] ++ str "." ++ tld).
Proof.
  intros Ha Hb Hc Htld Hlen.
  change ([a; b; c] ++ str "." ++ tld)
    with ([] ++ [] ++ [a] ++ [b] ++ [c] ++ ["."%char] ++ tld).
  unfold websiteRegex. cbn [seqs].
  apply lang_seq; [now left|].
  apply lang_seq; [now left|].
  apply lang_seq; [now exists a|].
  apply lang_seq.
  { cbn [lang]. split; [now repeat constructor | simpl; lia]. }
  apply lang_seq; [now exists c|].
  apply lang_seq; [now exists "."%char|].
  cbn [lang]. auto.
Qed.

End FieldExtractors.

(** C7. Each of the four field extractors is a total function of the raw
    text; what it returns are the matches of its regular expression, in
    order of appearance and without overlap: the text splits into gaps and
    matches, every match is a word of the expression, no match starts in a
    gap and none occurs after the last one.  When the expression occurs
    nowhere in the text the result is the empty sequence. *)
Theorem field_extractors_scan (t : text) :
  (scan addressRegex t (extractAddresses t)
   /\ scan phoneRegex t (extractPhoneNumbers t)
   /\ scan websiteRegex t (extractWebsites t)
   /\ scan emailRegex t (extractEmails t))
  /\ ((~ occurs addressRegex t -> extractAddresses t = [])
      /\ (~ occurs phoneRegex t -> extractPhoneNumbers t = [])
      /\ (~ occurs websiteRegex t -> extractWebsites t = [])
      /\ (~ occurs emailRegex t -> extractEmails t = []))
  /\ extractEmails (str "no emails here") = [].
Proof.
  destruct extractor_regexes_not_nullable as [Ha [Hp [Hw He]]].
  split; [|split].
  - repeat split; now apply matchAll_scan.
  - repeat split; now apply no_occurrence_matchAll.
  - vm_compute. reflexivity.
Qed.

(** C10, as stated, fails in its reason: "a@b.co" is accepted by the email
    expression, the email extractor returns it, and the website expression
    matches nowhere in it (its host label must have three characters). *)
Lemma email_without_website_match :
  lang emailRegex (str "a@b.co")
  /\ extractEmails (str "a@b.co") = [str "a@b.co"]
  /\ ~ occurs websiteRegex (str "a@b.co")
  /\ extractWebsites (str "a@b.co") = [].
Proof.
  split; [|split; [|split]].
  - apply whole_match_lang. vm_compute. now left.
  - vm_compute. reflexivity.
  - intros H. apply occurrence_matchAll in H; [|reflexivity].
    apply H. vm_compute. reflexivity.
  - vm_compute. reflexivity.
Qed.

(** C10, amended. For the text "mail info@example.com", which holds an
    email address and no website of its own, the website extractor returns
    "example.com"; and it returns a non-empty sequence for every address
    accepted by the email expression whose domain ends, before the dot and
    the top-level domain, with a label of at least three characters
    (alphanumeric, hyphen allowed in the middle).  The websites field can
    therefore contain fragments of email addresses. *)
Theorem email_domain_extracted_as_website :
  (extractEmails (str "mail info@example.com") = [str "info@example.com"]
   /\ extractWebsites (str "mail info@example.com") = [str "example.com"])
  /\ (forall localPart domain a b c tld,
         let email :=
           localPart ++ str "@" ++ domain ++ [a; b; c] ++ str "." ++ tld in
         lang emailRegex email ->
         is_alnum a = true -> (is_alnum b || is_char "-" b) = true ->
         is_alnum c = true ->
         Forall (fun x => is_letter x = true) tld -> 2 <= length tld ->
         occurs websiteRegex (domain ++ [a; b; c] ++ str "." ++ tld)
         /\ extractWebsites email <> []).
Proof.
  split.
  - split; vm_compute; reflexivity.
  - intros localPart domain a b c tld email _ Ha Hb Hc Htld Hlen.
    pose proof (website_word a b c Ha Hb Hc Htld Hlen) as Hw.
    split.
    + exists domain, ([a; b; c] ++ str "." ++ tld), [].
      split; [now rewrite app_nil_r | exact Hw].
    + apply occurrence_matchAll; [reflexivity|].
      exists (localPart ++ str "@" ++ domain),
        ([a; b; c] ++ str "." ++ tld), [].
      split; [|exact Hw]. subst email.
      now rewrite app_nil_r, <- !app_assoc.
Qed.

Lemma email_domain_extracted_as_website_witness :
  occurs websiteRegex (str "example.com")
  /\ extractWebsites (str "info@example.com") <> [].
Proof.
  apply (proj2 email_domain_extracted_as_website
           (str "info") (str "exam") "p"%char "l"%char "e"%char (str "com")).
  - apply whole_match_lang. vm_compute. now left.
  - reflexivity.
  - reflexivity.
  - reflexivity.
  - repeat constructor.
  - simpl. lia.
Defined.

(** ** The scenarios of the specification, evaluated *)

Section Scenarios.

Example joesSign_lines :
  cleanedLinesOf joesSign
  = [str "JOE'S COFFEE SHOP"; str "123 Main Street"; str "Open Daily"].
Proof. vm_compute. reflexivity. Qed.

Example joesSign_context :
  In (str "JOE'S COFFEE SHOP")
     (extractWithBusinessContext (cleanedLinesOf joesSign)).
Proof. vm_compute. now left. Qed.

Example joesSign_address : extractAddresses joesSign = [str "123 Main Street"].
Proof. vm_compute. reflexivity. Qed.

Example joesSign_names :
  extractBusinessNamesWithContext joesSign
  = [str "JOE'S COFFEE SHOP"; str "Open Daily"; str "123 Main Street"].
Proof. vm_compute. reflexivity. Qed.

(** Twelve detections, eight words, two names: the sum exceeds the clamp. *)
Example full_confidence :
  let words := str "one two three four five six seven eight" in
  let detections :=
    {| description := Some words |}
      :: repeat {| description := Some (str "w") |} 11 in
  finalConfidence detections [str "A"; str "B"] = 0.95%float
  /\ businessName (calculateSmartConfidence detections [str "A"; str "B"])
     = High.
Proof. split; vm_compute; reflexivity. Qed.

Example phone_and_website :
  extractPhoneNumbers (str "call +1 (415) 555-0000 or 555.123.4567")
  = [str "+1 (415) 555-0000"; str "555.123.4567"]
  /\ extractWebsites (str "see https://www.joes-coffee.com today")
     = [str "https://www.joes-coffee.com"].
Proof. split; vm_compute; reflexivity. Qed.

End Scenarios.

(* ================================================================= *)
(** * Further properties of the code *)

(** ** Character enumeration *)

Section Enumeration.

Lemma forall_ascii_spec (f : ascii -> bool) :
  forall_ascii f = true -> forall c, f c = true.
Proof.
  unfold forall_ascii. rewrite forallb_forall. intros H c. apply H.
  unfold all_ascii. apply in_map_iff. exists (nat_of_ascii c).
  split; [apply ascii_nat_embedding|].
  apply in_seq. pose proof (nat_ascii_bounded c). lia.
Qed.

Lemma lower_char_at (c : ascii) : lower_char c = "@"%char -> c = "@"%char.
Proof.
  revert c.
  assert (H : forall_ascii
                (fun c => implb (Ascii.eqb (lower_char c) "@")
                                (Ascii.eqb c "@")) = true)
    by (vm_compute; reflexivity).
  intros c Hc. pose proof (forall_ascii_spec _ H c) as Hi. cbv beta in Hi.
  rewrite Hc in Hi. simpl in Hi. now apply Ascii.eqb_eq.
Qed.

End Enumeration.

(** ** [trim] *)

Section Trim.

Lemma trimStart_head (s : text) : head_not_space (trimStart s).
Proof.
  induction s as [|c t IH]; simpl; [exact I|].
  destruct (is_space c) eqn:E; [exact IH | exact E].
Qed.

Lemma trimStart_fixed (s : text) : head_not_space s -> trimStart s = s.
Proof. destruct s as [|c t]; simpl; [reflexivity | now intros ->]. Qed.

Lemma trimStart_suffix (s : text) :
  exists ws, s = ws ++ trimStart s /\ Forall (fun c => is_space c = true) ws.
Proof.
  induction s as [|c t IH]; simpl.
  - now exists [].
  - destruct (is_space c) eqn:E.
    + destruct IH as [ws [H Hws]]. exists (c :: ws). split.
      * simpl. now rewrite <- H.
      * now constructor.
    + now exists [].
Qed.

Lemma trimEnd_prefix (s : text) :
  exists ws, s = trimEnd s ++ ws /\ Forall (fun c => is_space c = true) ws.
Proof.
  unfold trimEnd. destruct (trimStart_suffix (rev s)) as [ws [H Hws]].
  exists (rev ws). split.
  - rewrite <- rev_app_distr, <- H. now rewrite rev_involutive.
  - now apply Forall_rev.
Qed.

Lemma trimEnd_head (s : text) : head_not_space s -> head_not_space (trimEnd s).
Proof.
  intros H. destruct (trimEnd_prefix s) as [ws [Hs _]].
  destruct (trimEnd s) as [|c t]; [exact I|].
  rewrite Hs in H. exact H.
Qed.

(** What [trim] returns has no white space at either end... *)
Lemma trim_trimmed (s : text) : trimmed (trim s).
Proof.
  unfold trimmed, trim. split.
  - apply trimEnd_head, trimStart_head.
  - unfold trimEnd. rewrite rev_involutive. apply trimStart_head.
Qed.

(** ... and such a text is left as it is. *)
Lemma trim_fixed (s : text) : trimmed s -> trim s = s.
Proof.
  intros [Hh Hl]. unfold trim, trimEnd.
  rewrite (trimStart_fixed _ Hh), (trimStart_fixed _ Hl).
  apply rev_involutive.
Qed.

Lemma trim_idempotent (s : text) : trim (trim s) = trim s.
Proof. apply trim_fixed, trim_trimmed. Qed.

End Trim.

(** ** [test] on anchored and unanchored patterns *)

Section RegexTest.

(** [/^r$/.test(s)] holds exactly when [s] is a word of [r]. *)
Lemma test_full (r : regex) (s : text) :
  test (Pattern true r true) s = true <-> lang r s.
Proof.
  unfold test, match_here. cbn [bol eol body negb orb].
  match goal with
  | |- context [filter ?f (ends r s)] =>
      destruct (filter f (ends r s)) as [|e l] eqn:E
  end; split; intros H; try discriminate; try reflexivity.
  - exfalso.
    assert (Hin : In [] (filter (fun e => length e =? 0) (ends r s))).
    { apply filter_In. split; [|reflexivity]. apply ends_spec. exists s.
      split; [now rewrite app_nil_r | assumption]. }
    now rewrite E in Hin.
  - assert (Hin : In e (filter (fun e => length e =? 0) (ends r s)))
      by (rewrite E; now left).
    apply filter_In in Hin. destruct Hin as [Hin Hlen].
    apply Nat.eqb_eq in Hlen. apply length_zero_iff_nil in Hlen. subst e.
    now apply whole_match_lang.
Qed.

Lemma match_here_matches_at (r : regex) (s : text) :
  match_here (Pattern false r false) s <> None <-> matches_at r s.
Proof.
  destruct (match_here (Pattern false r false) s) as [n|] eqn:E; split;
    intros H; try congruence.
  - apply match_here_some in E. destruct E as [rest [Hs [Hw _]]].
    now exists (firstn n s), rest.
  - now apply match_here_none in E.
Qed.

(** [/^r/.test(s)] holds exactly when a word of [r] starts [s]. *)
Lemma test_prefix (r : regex) (s : text) :
  test (Pattern true r false) s = true <-> matches_at r s.
Proof.
  rewrite <- match_here_matches_at. unfold test. cbn [bol].
  change (match_here (Pattern true r false) s)
    with (match_here (Pattern false r false) s).
  destruct (match_here _ s); split; congruence.
Qed.

Lemma occurs_cons (r : regex) (c : ascii) (t : text) :
  occurs r (c :: t) <-> matches_at r (c :: t) \/ occurs r t.
Proof.
  split.
  - intros [pre [w [post [H Hw]]]]. destruct pre as [|c' pre].
    + left. now exists w, post.
    + right. injection H as _ H. now exists pre, w, post.
  - intros [[w [rest [H Hw]]] | [pre [w [post [H Hw]]]]].
    + now exists [], w, rest.
    + exists (c :: pre), w, post. split; [simpl; now rewrite H | assumption].
Qed.

Lemma occurs_nil (r : regex) : occurs r [] <-> matches_at r [].
Proof.
  split.
  - intros [pre [w [post [H Hw]]]]. destruct pre; [|discriminate].
    now exists w, post.
  - intros [w [rest [H Hw]]]. now exists [], w, rest.
Qed.

(** [/r/.test(s)] holds exactly when a word of [r] occurs in [s]. *)
Lemma test_search (r : regex) (s : text) :
  test (Pattern false r false) s = true <-> occurs r s.
Proof.
  unfold test. cbn [bol]. induction s as [|c t IH]; cbn [search_from].
  - rewrite occurs_nil, <- match_here_matches_at.
    destruct (match_here _ []); split; congruence.
  - rewrite occurs_cons, <- match_here_matches_at, <- IH.
    destruct (match_here _ (c :: t)); split; intros H; try tauto;
      try congruence; try (left; congruence).
Qed.

Lemma test_digitsOnly (line : text) :
  test digitsOnly line = true <->
  line <> [] /\ Forall (fun c => is_digit c = true) line.
Proof.
  unfold digitsOnly. rewrite test_full. unfold plus. cbn [lang]. split.
  - intros [H [Hl _]]. split; [|assumption]. destruct line; simpl in Hl;
      [lia | discriminate].
  - intros [Hne H]. repeat split; [assumption|].
    destruct line; [congruence | simpl; lia].
Qed.

Lemma test_anyLetter (line : text) :
  test anyLetter line = true <-> exists c, In c line /\ is_letter c = true.
Proof.
  unfold anyLetter. rewrite test_search. split.
  - intros [pre [w [post [H [c [-> Hc]]]]]]. exists c. split; [|assumption].
    rewrite H. apply in_or_app. right. now left.
  - intros [c [Hin Hc]]. apply in_split in Hin. destruct Hin as [pre [post ->]].
    exists pre, [c], post. split; [reflexivity | now exists c].
Qed.

Lemma digit_not_letter (c : ascii) : is_digit c = true -> is_letter c = false.
Proof.
  assert (H : forall_ascii (fun c => implb (is_digit c) (negb (is_letter c)))
              = true) by (vm_compute; reflexivity).
  intros Hd. pose proof (forall_ascii_spec _ H c) as Hi. cbv beta in Hi.
  rewrite Hd in Hi. simpl in Hi. now destruct (is_letter c).
Qed.

Lemma includes_char (s : text) (c : ascii) :
  includes s [c] = true <-> In c s.
Proof.
  rewrite includes_spec. unfold substring. split.
  - intros [pre [post ->]]. apply in_or_app. right. now left.
  - intros H. apply in_split in H. destruct H as [pre [post ->]].
    now exists pre, post.
Qed.

End RegexTest.

(** ** The line preprocessor *)

Section Preprocessor.

Lemma when_length (A : Type) (b : bool) (x : A) (l : list A) :
  (length (when b x ++ l) =? 0) = negb b && (length l =? 0).
Proof. destruct b; reflexivity. Qed.

(** The nine checks of [preprocessLines] come down to six: a line made of
    digits, or equal to "&" or "-", is already too short or without
    letters. *)
Lemma filterReasons_none (line : text) :
  (length (filterReasons line) =? 0) = true <->
  2 <= length line
  /\ (exists c, In c line /\ is_letter c = true)
  /\ ~ In (toLowerCase line) commonWords
  /\ ~ (exists rest, toLowerCase line = str "www" ++ rest)
  /\ ~ (exists rest, toLowerCase line = str "http" ++ rest)
  /\ ~ In "@"%char line.
Proof.
  unfold filterReasons. cbv zeta.
  change (str "@") with ["@"%char].
  rewrite !when_length.
  replace (length (when (negb (test anyLetter line)) (str "no letters")) =? 0)
    with (test anyLetter line) by (now destruct (test anyLetter line)).
  rewrite !andb_true_iff, !negb_true_iff.
  rewrite <- !not_true_iff_false.
  rewrite Nat.leb_le, test_anyLetter, !startsWith_spec, includes_char.
  rewrite existsb_exists, test_digitsOnly, !text_eqb_true.
  split.
  - intros [H1 [H2 [H3 [H4 [H5 [H6 [H7 [H8 H9]]]]]]]].
    split; [lia|]. split; [assumption|]. split.
    { intros Hin. apply H2. exists (toLowerCase line). split; [assumption|].
      now apply text_eqb_true. }
    split; [assumption|]. split; [assumption|].
    intros Hat. apply H5. unfold toLowerCase. apply in_map_iff.
    now exists "@"%char.
  - intros [H1 [[c [Hc Hl]] [H3 [H4 [H5 H6]]]]].
    split; [lia|]. split.
    { intros [x [Hx Hxe]]. apply text_eqb_true in Hxe. now subst x. }
    split; [assumption|]. split; [assumption|]. split.
    { intros Hat. apply H6. unfold toLowerCase in Hat.
      apply in_map_iff in Hat. destruct Hat as [x [Hx Hin]].
      apply lower_char_at in Hx. now subst x. }
    split.
    { intros [_ Hd]. rewrite Forall_forall in Hd.
      apply Hd, digit_not_letter in Hc. congruence. }
    split; [intros ->; simpl in H1; lia|].
    split; [intros ->; simpl in H1; lia|].
    exists c. now split.
Qed.

End Preprocessor.

(** X1. A line survives [preprocessLines] exactly when it is the trimmed
    form of an input line, has at least two characters, contains a Latin
    letter, is not one of the ten common words, does not start with "www"
    or "http" (case-insensitively) and contains no "@".  The three further
    checks of the code (digits only, "&", "-") never decide. *)
Theorem preprocessLines_kept (lines : list text) (line : text) :
  In line (preprocessLines lines) <->
  (exists raw, In raw lines /\ line = trim raw)
  /\ 2 <= length line
  /\ (exists c, In c line /\ is_letter c = true)
  /\ ~ In (toLowerCase line) commonWords
  /\ ~ (exists rest, toLowerCase line = str "www" ++ rest)
  /\ ~ (exists rest, toLowerCase line = str "http" ++ rest)
  /\ ~ In "@"%char line.
Proof.
  unfold preprocessLines. rewrite filter_In, in_map_iff, filterReasons_none.
  split.
  - intros [[raw [<- Hraw]] H]. split; [now exists raw | exact H].
  - intros [[raw [Hraw ->]] H]. split; [now exists raw | exact H].
Qed.

(** X2. [preprocessLines] keeps the order of the lines, returns lines
    without white space at either end, and is idempotent. *)
Theorem preprocessLines_idempotent (lines : list text) :
  subsequence (preprocessLines lines) (map trim lines)
  /\ Forall trimmed (preprocessLines lines)
  /\ preprocessLines (preprocessLines lines) = preprocessLines lines.
Proof.
  unfold preprocessLines.
  set (keep := fun line => length (filterReasons line) =? 0).
  assert (Hsub : forall l : list text, subsequence (filter keep l) l).
  { induction l as [|x l IH]; simpl; [constructor|].
    destruct (keep x); now constructor. }
  assert (Htr : Forall trimmed (filter keep (map trim lines))).
  { apply Forall_forall. intros x Hx. apply filter_In in Hx.
    destruct Hx as [Hx _]. apply in_map_iff in Hx.
    destruct Hx as [raw [<- _]]. apply trim_trimmed. }
  split; [apply Hsub | split; [exact Htr|]].
  assert (Hmap : map trim (filter keep (map trim lines))
                 = filter keep (map trim lines)).
  { induction Htr as [|x l Hx Hl IH]; simpl; [reflexivity|].
    now rewrite (trim_fixed Hx), IH. }
  rewrite Hmap. clear Hmap Htr.
  induction (map trim lines) as [|x l IH]; simpl; [reflexivity|].
  destruct (keep x) eqn:E; simpl; [now rewrite E, IH | exact IH].
Qed.

(** ** The context and pattern generators *)

Section Generators.

Lemma in_contextMatch (indicators : list (list text)) (combined x : text) :
  In x (contextMatch indicators combined) <->
  x = combined /\ length combined < 50
  /\ exists words,
      In words indicators
      /\ forall w, In w words -> substring w (toLowerCase combined).
Proof.
  induction indicators as [|words rest IH]; cbn [contextMatch].
  - split; [contradiction|]. intros [_ [_ [words [[] _]]]].
  - destruct (forallb (includes (toLowerCase combined)) words) eqn:Ea;
      destruct (Nat.ltb_spec (length combined) 50) as [Hl | Hl]; cbn [andb].
    + split.
      * intros [<- | []]. repeat split; [assumption|]. exists words.
        split; [now left|]. intros w Hw. rewrite forallb_forall in Ea.
        now apply includes_spec, Ea.
      * intros [-> _]. now left.
    + rewrite IH. split; intros [_ [H _]]; lia.
    + rewrite IH. split.
      * intros [-> [Hlen [ws [Hws Hall]]]]. repeat split; [assumption|].
        exists ws. split; [now right | assumption].
      * intros [-> [Hlen [ws [[<- | Hws] Hall]]]].
        -- exfalso. assert (forallb (includes (toLowerCase combined)) words
                            = true); [|congruence].
           apply forallb_forall. intros w Hw. now apply includes_spec, Hall.
        -- repeat split; [assumption|]. now exists ws.
    + rewrite IH. split; intros [_ [H _]]; lia.
Qed.

Lemma in_patternMatch (ps : list pattern) (combined x : text) :
  In x (patternMatch ps combined) <->
  x = combined /\ length combined <= 35
  /\ exists p, In p ps /\ test p combined = true.
Proof.
  induction ps as [|p rest IH]; cbn [patternMatch].
  - split; [contradiction|]. intros [_ [_ [p [[] _]]]].
  - destruct (test p combined) eqn:Et;
      destruct (Nat.leb_spec (length combined) 35) as [Hl | Hl]; cbn [andb].
    + split.
      * intros [<- | []]. repeat split; [assumption|]. exists p.
        split; [now left | assumption].
      * intros [-> _]. now left.
    + rewrite IH. split; intros [_ [H _]]; lia.
    + rewrite IH. split.
      * intros [-> [Hlen [q [Hq Ht]]]]. repeat split; [assumption|].
        exists q. split; [now right | assumption].
      * intros [-> [Hlen [q [[<- | Hq] Ht]]]]; [congruence|].
        repeat split; [assumption|]. now exists q.
    + rewrite IH. split; intros [_ [H _]]; lia.
Qed.

(** Windows of consecutive lines. *)
Lemma slice_cons (A : Type) (d : A) (i j : nat) (l : list A) :
  i < length l -> i < j ->
  slice i j l = nth i l d :: slice (S i) j l.
Proof.
  unfold slice. revert i j. induction l as [|x l IH]; intros i j Hi Hj.
  - simpl in Hi. lia.
  - destruct i as [|i].
    + destruct j as [|j]; [lia|]. simpl. now rewrite Nat.sub_0_r.
    + destruct j as [|j]; [lia|]. simpl in Hi.
      change (skipn (S i) (x :: l)) with (skipn i l).
      change (nth (S i) (x :: l) d) with (nth i l d).
      change (S j - S i) with (j - i).
      rewrite (IH i j) by lia.
      destruct j as [|j]; [lia|]. reflexivity.
Qed.

Lemma slice_empty (A : Type) (i : nat) (l : list A) : slice i i l = [].
Proof. unfold slice. now rewrite Nat.sub_diag. Qed.

Lemma slice_one (lines : list text) (i : nat) :
  i < length lines -> slice i (i + 1) lines = [nth i lines []].
Proof.
  intros H. rewrite (@slice_cons text [] i (i + 1) lines) by lia.
  replace (i + 1) with (S i) by lia. now rewrite slice_empty.
Qed.

Lemma slice_two (lines : list text) (i : nat) :
  i + 1 < length lines ->
  slice i (i + 2) lines = [nth i lines []; nth (i + 1) lines []].
Proof.
  intros H. rewrite (@slice_cons text [] i (i + 2) lines) by lia.
  replace (i + 2) with (S i + 1) by lia.
  rewrite slice_one by lia. now replace (S i) with (i + 1) by lia.
Qed.

Lemma slice_three (lines : list text) (i : nat) :
  i + 2 < length lines ->
  slice i (i + 3) lines
  = [nth i lines []; nth (i + 1) lines []; nth (i + 2) lines []].
Proof.
  intros H. rewrite (@slice_cons text [] i (i + 3) lines) by lia.
  replace (i + 3) with (S i + 2) by lia.
  rewrite slice_two by lia.
  now replace (S i + 1) with (i + 2) by lia; replace (S i) with (i + 1) by lia.
Qed.

End Generators.

(** X3. A text is emitted by the context-indicator generator exactly when
    it is the space-joined window of 1 to 4 consecutive lines, is shorter
    than 50 characters, and its lowercased form contains every word of one
    of the indicator groups. *)
Theorem context_candidates (lines : list text) (c : text) :
  In c (extractWithBusinessContext lines) <->
  exists i j,
    i < j /\ j <= length lines /\ j <= i + 4
    /\ c = join (str " ") (slice i j lines)
    /\ length c < 50
    /\ exists words,
        In words businessIndicators
        /\ forall w, In w words -> substring w (toLowerCase c).
Proof.
  unfold extractWithBusinessContext. rewrite in_flat_map. split.
  - intros [i [Hi Hc]]. apply in_flat_map in Hc. destruct Hc as [j [Hj Hc]].
    apply in_seq in Hi. apply in_seq in Hj. apply in_contextMatch in Hc.
    destruct Hc as [-> [Hlen Hw]]. exists i, j.
    repeat split; try lia; assumption.
  - intros [i [j [Hij [Hj [Hj4 [-> [Hlen Hw]]]]]]]. exists i.
    split; [apply in_seq; lia|]. apply in_flat_map. exists j.
    split; [apply in_seq; lia|]. apply in_contextMatch. now repeat split.
Qed.

(** X4. A text is emitted by the pattern generator exactly when it is the
    space-joined window of 1 to 3 consecutive lines that starts before the
    last line, is at most 35 characters long, and matches one of the four
    shapes.  A list of fewer than two lines yields nothing, whatever the
    line. *)
Theorem pattern_candidates (lines : list text) (c : text) :
  (In c (extractWithPatternMatching lines) <->
   exists i j,
     i + 1 < length lines /\ i < j /\ j <= length lines /\ j <= i + 3
     /\ c = join (str " ") (slice i j lines)
     /\ length c <= 35
     /\ exists p, In p patterns /\ lang (body p) c)
  /\ (length lines <= 1 -> extractWithPatternMatching lines = []).
Proof.
  assert (Htest : forall x,
             (exists p, In p patterns /\ test p x = true) <->
             (exists p, In p patterns /\ lang (body p) x)).
  { intros x. split; intros [p [Hp Ht]]; exists p; (split; [assumption|]);
      cbn [patterns In] in Hp;
      repeat (destruct Hp as [<- | Hp]; [now apply test_full in Ht|]);
      contradiction. }
  split.
  - unfold extractWithPatternMatching. rewrite in_flat_map. split.
    + intros [i [Hi Hc]]. apply in_flat_map in Hc. destruct Hc as [j [Hj Hc]].
      apply in_seq in Hi. apply in_seq in Hj. apply in_patternMatch in Hc.
      destruct Hc as [-> [Hlen Hp]]. apply Htest in Hp. exists i, j.
      repeat split; try lia; assumption.
    + intros [i [j [Hi [Hij [Hj [Hj3 [-> [Hlen Hp]]]]]]]]. exists i.
      split; [apply in_seq; lia|]. apply in_flat_map. exists j.
      split; [apply in_seq; lia|]. apply in_patternMatch.
      repeat split; [assumption|]. now apply Htest.
  - intros H. unfold extractWithPatternMatching.
    replace (length lines - 1) with 0 by lia. reflexivity.
Qed.

Lemma pattern_candidates_witness :
  extractWithPatternMatching [str "Blue Moon"] = [].
Proof.
  apply (proj2 (pattern_candidates [str "Blue Moon"] [])). simpl. lia.
Defined.

(** ** The scorer *)

Section Scorer.

Local Open Scope Z_scope.

Ltac split_ifs :=
  repeat match goal with
         | |- context [if ?b then _ else _] => destruct b
         end.

Lemma keywordPoints_bounds (lowerName : text) :
  0 <= keywordPoints businessKeywords lowerName <= 8.
Proof. unfold businessKeywords. cbn [keywordPoints]. split_ifs; lia. Qed.

Lemma substring_trans (a b c : text) :
  substring a b -> substring b c -> substring a c.
Proof.
  intros [p1 [q1 ->]] [p2 [q2 ->]]. exists (p2 ++ p1), (q1 ++ q2).
  now rewrite <- !app_assoc.
Qed.

Lemma indexOf_from_lower (arr : list text) (x : text) (i : Z) :
  0 <= i -> -1 <= indexOf_from arr x i.
Proof.
  revert i. induction arr as [|y arr IH]; intros i Hi; simpl; [lia|].
  destruct (text_eqb y x); [lia|]. apply IH. lia.
Qed.

End Scorer.

Lemma score_within (n : text) (position : Z) :
  (0 <= scoreBusinessName n position <= positionScore position + 21)%Z.
Proof.
  pose proof (keywordPoints_bounds (toLowerCase n)) as Hk.
  unfold scoreBusinessName, positionScore. cbv zeta.
  set (k := keywordPoints businessKeywords (toLowerCase n)) in *.
  clearbody k.
  repeat match goal with
         | |- context [if ?b then _ else _] => destruct b
         end; lia.
Qed.

(** X5. The score is never negative, exceeds the position component by at
    most 21 points (5 for the word count, 5 for the format, 8 for a keyword,
    3 for the length), and never grows when the position grows. *)
Theorem scoreBusinessName_bounds (n : text) (position : Z) :
  (0 <= scoreBusinessName n position)%Z
  /\ (scoreBusinessName n position <= positionScore position + 21)%Z
  /\ (forall later,
         (position <= later)%Z ->
         (scoreBusinessName n later <= scoreBusinessName n position)%Z).
Proof.
  split; [apply score_within | split; [apply score_within|]].
  intros later Hlater.
  unfold scoreBusinessName, positionScore. cbv zeta.
  set (k := keywordPoints businessKeywords (toLowerCase n)).
  clearbody k.
  repeat match goal with
         | |- context [if ?b then _ else _] => destruct b
         end; lia.
Qed.

(** X6. Inside the orchestrator the position is an index or [-1], so every
    candidate's score lies between 0 and 32. *)
Theorem nameScore_range (cleanedLines : list text) (n : text) :
  (-1 <= firstWordIndex cleanedLines n)%Z
  /\ (0 <= nameScore cleanedLines n <= 32)%Z.
Proof.
  assert (Hp : (-1 <= firstWordIndex cleanedLines n)%Z)
    by (apply indexOf_from_lower; lia).
  split; [exact Hp|]. unfold nameScore.
  pose proof (score_within n (firstWordIndex cleanedLines n)) as H.
  unfold positionScore in H. lia.
Qed.

(** X7. Two table entries never decide: a text that contains "coffee" and
    "shop" already contains "coffee", the first indicator group, and a name
    that contains "coffee shop" already earns the points of "coffee". *)
Theorem coffee_shop_entries_unused :
  (forall combined,
      contextMatch businessIndicators combined
      = contextMatch (firstn 2 businessIndicators ++ skipn 3 businessIndicators)
                     combined)
  /\ (forall lowerName,
         keywordPoints businessKeywords lowerName
         = keywordPoints (firstn 2 businessKeywords ++ skipn 3 businessKeywords)
                         lowerName).
Proof.
  split.
  - intros combined. unfold businessIndicators.
    cbn [firstn skipn app contextMatch forallb].
    destruct (length combined <? 50)%nat;
      rewrite ?andb_false_r, ?andb_true_r; [|reflexivity].
    destruct (includes (toLowerCase combined) (str "coffee")); cbn [andb];
      reflexivity.
  - intros lowerName. unfold businessKeywords.
    cbn [firstn skipn app keywordPoints].
    destruct (includes lowerName (str "coffee")) eqn:Ec; [reflexivity|].
    destruct (includes lowerName (str "food park")); [reflexivity|].
    destruct (includes lowerName (str "coffee shop")) eqn:Es; [|reflexivity].
    exfalso. apply includes_spec in Es.
    assert (Hc : substring (str "coffee") lowerName).
    { apply (@substring_trans _ (str "coffee shop")); [|assumption].
      now exists [], (str " shop"). }
    apply includes_spec in Hc. congruence.
Qed.

(** ** More on the deduplicator and the ranking *)

Section DeduplicatorMore.

Lemma isContained_refl (c : Candidate) : isContained c c = true.
Proof.
  unfold isContained. rewrite !orb_true_iff. right. now apply text_eqb_true.
Qed.

Lemma removeSimilar_from_keeps (candidates unique : list Candidate)
  (e : Candidate) :
  In e unique -> In e (removeSimilar_from unique candidates).
Proof.
  intros H.
  destruct (removeSimilar_from_subsequence candidates unique) as [kept [-> _]].
  apply in_or_app. now left.
Qed.

Lemma removeSimilar_from_covers (candidates unique : list Candidate)
  (c : Candidate) :
  In c candidates ->
  exists e, In e (removeSimilar_from unique candidates)
            /\ isContained e c = true.
Proof.
  revert unique. induction candidates as [|x rest IH]; intros unique H;
    [contradiction|].
  cbn [removeSimilar_from]. destruct H as [-> | H].
  - destruct (existsb _ unique) eqn:E.
    + apply existsb_exists in E. destruct E as [e [He Hc]].
      exists e. split; [now apply removeSimilar_from_keeps | assumption].
    + exists c. split; [|apply isContained_refl].
      apply removeSimilar_from_keeps, in_or_app. right. now left.
  - destruct (existsb _ unique); now apply IH.
Qed.

Lemma StronglySorted_app_inv (A : Type) (R : A -> A -> Prop) (l1 l2 : list A) :
  StronglySorted R (l1 ++ l2) ->
  forall a b, In a l1 -> In b l2 -> R a b.
Proof.
  induction l1 as [|x l1 IH]; intros H a b Ha Hb; [contradiction|].
  simpl in H. inversion H as [|? ? Hs Hx]; subst.
  destruct Ha as [-> | Ha].
  - rewrite Forall_forall in Hx. apply Hx, in_or_app. now right.
  - now apply IH.
Qed.

Lemma removeSimilarCandidates_hd (candidates : list Candidate) :
  hd_error (removeSimilarCandidates candidates) = hd_error candidates.
Proof.
  destruct candidates as [|c rest]; [reflexivity|].
  unfold removeSimilarCandidates. cbn [removeSimilar_from existsb app].
  destruct (removeSimilar_from_subsequence rest [c]) as [kept [-> _]].
  reflexivity.
Qed.

End DeduplicatorMore.

(** X8. Deduplication loses no candidate without a representative: every
    candidate is equal to, contained in, or containing (in lower case) some
    kept candidate; the kept candidates are a subsequence of the input, hence
    no more numerous; and the first candidate is always kept. *)
Theorem removeSimilarCandidates_covers (candidates : list Candidate) :
  let kept := removeSimilarCandidates candidates in
  (forall c, In c candidates -> exists e, In e kept /\ similar e c)
  /\ subsequence kept candidates
  /\ length kept <= length candidates
  /\ hd_error kept = hd_error candidates.
Proof.
  cbv zeta. split; [|split; [|split]].
  - intros c Hc.
    destruct (@removeSimilar_from_covers candidates [] c Hc) as [e [He Hs]].
    exists e. split; [exact He | now apply isContained_spec].
  - apply removeSimilarCandidates_subsequence.
  - pose proof (removeSimilarCandidates_subsequence candidates) as H.
    induction H; simpl; lia.
  - apply removeSimilarCandidates_hd.
Qed.

Section OrchestratorMore.

Lemma sortBy_length (l : list Candidate) :
  length (sortBy byScoreDesc l) = length l.
Proof. symmetry. apply Permutation_length, sortBy_perm. Qed.

Lemma unique_nil (fullText : text) :
  uniqueCandidates fullText = [] <-> generate (cleanedLinesOf fullText) = [].
Proof.
  unfold uniqueCandidates.
  pose proof (removeSimilarCandidates_hd (scoredCandidates fullText)) as Hhd.
  unfold scoredCandidates, scoreAll in *.
  destruct (generate (cleanedLinesOf fullText)) as [|c rest]; cbn [map] in *.
  - split; reflexivity.
  - split; [|discriminate]. intros E. rewrite E in Hhd. discriminate.
Qed.

End OrchestratorMore.

Section OrchestratorShape.

Lemma FOP_app_l (A : Type) (R : A -> A -> Prop) (l1 l2 : list A) :
  ForallOrdPairs R (l1 ++ l2) -> ForallOrdPairs R l1.
Proof.
  induction l1 as [|x l1 IH]; intros H; [constructor|].
  simpl in H. inversion H as [|? ? Hx Hrest]; subst. constructor.
  - apply Forall_app in Hx. tauto.
  - now apply IH.
Qed.

Lemma apart_names_NoDup (l : list Candidate) :
  ForallOrdPairs apart l -> NoDup (map name l).
Proof.
  induction 1 as [|a l Ha Hl IH]; simpl; constructor; [|assumption].
  intros Hin. apply in_map_iff in Hin. destruct Hin as [b [Hb Hin]].
  rewrite Forall_forall in Ha. specialize (Ha b Hin). unfold apart in Ha.
  assert (isContained a b = true); [|congruence].
  unfold isContained. rewrite Hb, !orb_true_iff. right.
  now apply text_eqb_true.
Qed.

Lemma ranked_apart (fullText : text) :
  ForallOrdPairs apart
    (firstn 3 (sortBy byScoreDesc (uniqueCandidates fullText))).
Proof.
  apply FOP_app_l
    with (l2 := skipn 3 (sortBy byScoreDesc (uniqueCandidates fullText))).
  rewrite firstn_skipn.
  apply FOP_perm with (l := uniqueCandidates fullText).
  - apply apart_sym.
  - apply sortBy_perm.
  - apply removeSimilarCandidates_apart.
Qed.

Lemma unique_generated (fullText : text) (c : Candidate) :
  In c (uniqueCandidates fullText) ->
  exists g, In g (generate (cleanedLinesOf fullText)) /\ name g = name c.
Proof.
  intros H. apply removeSimilar_from_In in H. destruct H as [[] | H].
  unfold scoredCandidates, scoreAll in H. apply in_map_iff in H.
  destruct H as [g [<- Hg]]. now exists g.
Qed.

Lemma ranked_unique (fullText : text) (c : Candidate) :
  In c (firstn 3 (sortBy byScoreDesc (uniqueCandidates fullText))) ->
  In c (uniqueCandidates fullText).
Proof.
  intros H. apply In_firstn_In in H.
  eapply Permutation_in; [symmetry; apply sortBy_perm | exact H].
Qed.

(** Every candidate of the three generators is a window of the lines. *)
Lemma generate_windows (cleanedLines : list text) (c : Candidate) :
  In c (generate cleanedLines) -> window cleanedLines (name c).
Proof.
  unfold generate. rewrite !in_app_iff, !in_map_iff.
  intros [[n [<- H]] | [[n [<- H]] | [n [<- H]]]]; cbn [name].
  - unfold extractWithBusinessContext in H. apply in_flat_map in H.
    destruct H as [i [Hi H]]. apply in_flat_map in H.
    destruct H as [j [Hj H]]. apply in_seq in Hi. apply in_seq in Hj.
    apply in_contextMatch in H. destruct H as [-> _].
    exists i, j. repeat split; lia.
  - unfold extractWithPositionalWeighting in H. apply in_flat_map in H.
    destruct H as [i [Hi H]]. apply in_seq in Hi.
    apply in_positionalAt in H. cbv zeta in H.
    destruct H as [[-> _] | [[Hi1 [-> _]] | [Hi2 [-> _]]]].
    + exists i, (i + 1). rewrite slice_one by lia. repeat split; lia.
    + exists i, (i + 2). rewrite slice_two by lia. repeat split; lia.
    + exists i, (i + 3). rewrite slice_three by lia. repeat split; lia.
  - unfold extractWithPatternMatching in H. apply in_flat_map in H.
    destruct H as [i [Hi H]]. apply in_flat_map in H.
    destruct H as [j [Hj H]]. apply in_seq in Hi. apply in_seq in Hj.
    apply in_patternMatch in H. destruct H as [-> _].
    exists i, j. repeat split; lia.
Qed.

End OrchestratorShape.

(** X9. The orchestrator returns min(3, number of kept candidates) names,
    all different; it returns none exactly when the generators produce no
    candidate; and every name it returns is the text of a generated
    candidate. *)
Theorem businessNames_count (fullText : text) :
  let names := extractBusinessNamesWithContext fullText in
  length names = Nat.min 3 (length (uniqueCandidates fullText))
  /\ NoDup names
  /\ (names = [] <-> generate (cleanedLinesOf fullText) = [])
  /\ incl names (map name (generate (cleanedLinesOf fullText))).
Proof.
  cbv zeta. unfold extractBusinessNamesWithContext.
  split; [|split; [|split]].
  - now rewrite length_map, length_firstn, sortBy_length.
  - apply apart_names_NoDup, ranked_apart.
  - rewrite <- unique_nil. split.
    + intros H. apply map_eq_nil in H.
      assert (Hl : length (firstn 3 (sortBy byScoreDesc
                                       (uniqueCandidates fullText))) = 0)
        by (now rewrite H).
      rewrite length_firstn, sortBy_length in Hl.
      destruct (uniqueCandidates fullText); [reflexivity | simpl in Hl; lia].
    + intros ->. reflexivity.
  - intros n Hn. apply in_map_iff in Hn. destruct Hn as [c [<- Hc]].
    apply ranked_unique, unique_generated in Hc.
    destruct Hc as [g [Hg <-]]. now apply in_map.
Qed.

(** X10. The three names returned are those of the best-scored kept
    candidates: a kept candidate that is not returned scores no more than
    any returned name. *)
Theorem businessNames_are_best (fullText : text) :
  let names := extractBusinessNamesWithContext fullText in
  let cleaned := cleanedLinesOf fullText in
  Forall (fun c =>
            In (name c) names
            \/ Forall (fun n => (nameScore cleaned (name c)
                                 <= nameScore cleaned n)%Z) names)
         (uniqueCandidates fullText).
Proof.
  cbv zeta. apply Forall_forall. intros c Hc.
  unfold extractBusinessNamesWithContext.
  set (sorted := sortBy byScoreDesc (uniqueCandidates fullText)).
  assert (Hs : In c (firstn 3 sorted ++ skipn 3 sorted)).
  { rewrite firstn_skipn.
    eapply Permutation_in; [apply sortBy_perm | exact Hc]. }
  apply in_app_or in Hs. destruct Hs as [Hs | Hs].
  - left. now apply in_map.
  - right. apply Forall_forall. intros n Hn.
    apply in_map_iff in Hn. destruct Hn as [c' [<- Hc']].
    assert (Hge : scoreGe c' c).
    { apply (@StronglySorted_app_inv _ scoreGe (firstn 3 sorted)
               (skipn 3 sorted)); try assumption.
      rewrite firstn_skipn. apply sortBy_sorted. }
    unfold scoreGe in Hge.
    rewrite <- (unique_score fullText c Hc).
    rewrite <- (unique_score fullText c'); [assumption|].
    now apply ranked_unique.
Qed.

(** X11. Every returned business name is a window of the filtered lines:
    1 to 4 consecutive lines joined by single spaces. *)
Theorem businessNames_are_windows (fullText : text) :
  Forall (window (cleanedLinesOf fullText))
         (extractBusinessNamesWithContext fullText).
Proof.
  apply Forall_forall. intros n Hn.
  unfold extractBusinessNamesWithContext in Hn.
  apply in_map_iff in Hn. destruct Hn as [c [<- Hc]].
  apply ranked_unique, unique_generated in Hc.
  destruct Hc as [g [Hg <-]]. now apply generate_windows.
Qed.

(** ** More on the confidence estimator *)

(** X12. The three levels are ordered: phone is never above address, which
    is never above the business-name level; the phone level is never High. *)
Theorem confidence_levels_ordered (detections : list Detection)
  (names : list text) :
  let c := calculateSmartConfidence detections names in
  levelRank (phone c) <= levelRank (address c)
  /\ levelRank (address c) <= levelRank (businessName c)
  /\ phone c <> High.
Proof.
  cbv zeta. unfold calculateSmartConfidence, finalConfidence.
  cbn [businessName address phone].
  destruct (5 <? length detections)%nat, (10 <? length detections)%nat,
    (0 <? length names)%nat, (1 <? length names)%nat,
    (5 <=? length (wordsOf (fullTextOf detections)))%nat;
    (split; [vm_compute; lia | split; [vm_compute; lia|]]);
    vm_compute; discriminate.
Qed.

(** X13. One business name is enough for a business-name level above Low,
    two are enough for High; without any name the level is High only with
    more than 10 detections and at least 5 words. *)
Theorem confidence_from_names (detections : list Detection)
  (names : list text) :
  let level := businessName (calculateSmartConfidence detections names) in
  (names <> [] -> level <> Low)
  /\ (2 <= length names -> level = High)
  /\ (names = [] ->
      (level = High <->
       10 < length detections
       /\ 5 <= length (wordsOf (fullTextOf detections)))).
Proof.
  cbv zeta. unfold calculateSmartConfidence, finalConfidence.
  cbn [businessName].
  destruct (Nat.ltb_spec 5 (length detections)) as [H5 | H5];
    destruct (Nat.ltb_spec 10 (length detections)) as [H10 | H10];
    destruct (Nat.ltb_spec 0 (length names)) as [H0 | H0];
    destruct (Nat.ltb_spec 1 (length names)) as [H1 | H1];
    destruct (Nat.leb_spec 5 (length (wordsOf (fullTextOf detections))))
      as [Hw | Hw].
  all: try (exfalso; lia).
  all: split;
    [intros Hne;
     first [ vm_compute; discriminate
           | exfalso; destruct names; [congruence | simpl in *; lia] ] |].
  all: split;
    [intros H2; first [ vm_compute; reflexivity | exfalso; lia ] |].
  all: intros ->; simpl in *; try (exfalso; lia).
  all: split;
    [intros H; first [ exfalso; vm_compute in H; discriminate | lia ]
    |intros [Ha Hb]; first [ exfalso; lia | vm_compute; reflexivity ]].
Qed.

Lemma confidence_from_names_witness :
  businessName (calculateSmartConfidence shortSign [str "Joe's"]) <> Low.
Proof.
  apply (proj1 (confidence_from_names shortSign [str "Joe's"])).
  discriminate.
Defined.

Section GateAfterExtraction.

Import Generator.

Lemma names_not_low (detections : list Detection) (names : list text) :
  names <> [] ->
  businessName (calculateSmartConfidence detections names) <> Low.
Proof.
  intros Hne. unfold calculateSmartConfidence, finalConfidence.
  cbn [businessName].
  replace (0 <? length names) with true
    by (destruct names; [congruence | reflexivity]).
  destruct (5 <? length detections)%nat, (10 <? length detections)%nat,
    (1 <? length names)%nat,
    (5 <=? length (wordsOf (fullTextOf detections)))%nat;
    vm_compute; discriminate.
Qed.

(** The gate on text data whose level is not Low once a name exists. *)
Lemma gate_without_low (textData : ExtractedText) :
  (businessNames textData <> [] ->
   businessName (confidence textData) <> Low) ->
  (shouldRequestConfirmation textData = true <->
   businessNames textData = []
   \/ ((exists generic,
           In generic genericNames
           /\ substring generic (firstBusinessName textData))
       /\ length (firstBusinessName textData) < 10)).
Proof.
  intros Hlow. unfold shouldRequestConfirmation.
  assert (Hgen :
            existsb (fun generic => includes (firstBusinessName textData) generic)
                    genericNames = true <->
            exists generic,
              In generic genericNames
              /\ substring generic (firstBusinessName textData)).
  { rewrite existsb_exists. split; intros [g [Hg Hi]]; exists g;
      (split; [exact Hg | now apply includes_spec]). }
  destruct (businessNames textData) as [|first others] eqn:En.
  - destruct (level_eqb _ Low); split; auto.
  - assert (Hl : businessName (confidence textData) <> Low)
      by (apply Hlow; discriminate).
    destruct (businessName (confidence textData)); [| |congruence];
      cbn [level_eqb length Nat.eqb];
      destruct (existsb _ genericNames) eqn:Eg;
      destruct (Nat.ltb_spec (length (firstBusinessName textData)) 10)
        as [Hlen | Hlen];
      cbn [andb]; split; intros H; try reflexivity; try discriminate;
      try (right; split; [now apply Hgen | assumption]);
      destruct H as [H | [Hg Hlt]]; try discriminate; try lia;
      apply Hgen in Hg; congruence.
Qed.

End GateAfterExtraction.

(** X14. The OCR entry point fails exactly on an empty detection list.  On
    what it returns, the Low-confidence test of the confirmation gate never
    decides: confirmation is requested exactly when no business name was
    found, or the first one (in lower case) contains a generic term and is
    shorter than 10 characters. *)
Theorem gate_after_extraction (detections : list Detection) :
  match extractTextWithEnhancedVision detections with
  | None => detections = []
  | Some textData =>
      detections <> []
      /\ (Generator.shouldRequestConfirmation textData = true <->
          businessNames textData = []
          \/ ((exists generic,
                  In generic Generator.genericNames
                  /\ substring generic (Generator.firstBusinessName textData))
              /\ length (Generator.firstBusinessName textData) < 10))
  end.
Proof.
  destruct detections as [|d rest]; [reflexivity|].
  cbn [extractTextWithEnhancedVision]. split; [discriminate|].
  apply gate_without_low. cbn [businessNames confidence].
  apply names_not_low.
Qed.

(** ** What the field extractors return *)

Section ExtractorContents.

Lemma countChars_app (Q : ascii -> bool) (u v : text) :
  countChars Q (u ++ v) = countChars Q u + countChars Q v.
Proof. unfold countChars. now rewrite filter_app, length_app. Qed.

Lemma countChars_le (Q : ascii -> bool) (w : text) :
  countChars Q w <= length w.
Proof. apply filter_length_le. Qed.

Lemma countChars_all (Q p : ascii -> bool) (w : text) :
  class_all Q p = true -> Forall (fun c => p c = true) w ->
  countChars Q w = length w.
Proof.
  intros Hall Hw. unfold countChars.
  induction Hw as [|c w Hc Hw IH]; simpl; [reflexivity|].
  pose proof (forall_ascii_spec _ Hall c) as Hi. cbv beta in Hi.
  rewrite Hc in Hi. simpl in Hi. rewrite Hi. simpl. now rewrite IH.
Qed.

Lemma countChars_none (Q p : ascii -> bool) (w : text) :
  class_none Q p = true -> Forall (fun c => p c = true) w ->
  countChars Q w = 0.
Proof.
  intros Hnone Hw. unfold countChars.
  induction Hw as [|c w Hc Hw IH]; simpl; [reflexivity|].
  pose proof (forall_ascii_spec _ Hnone c) as Hi. cbv beta in Hi.
  rewrite Hc in Hi. simpl in Hi. apply negb_true_iff in Hi. now rewrite Hi.
Qed.

(** The bounds hold of every word of the expression. *)
Lemma count_range (Q : ascii -> bool) (r : regex) (w : text) :
  lang r w ->
  count_lo Q r <= countChars Q w
  /\ forall h, count_hi Q r = Some h -> countChars Q w <= h.
Proof.
  revert w.
  induction r as [| p | p lo hi | r1 IH1 r2 IH2 | r1 IH1 r2 IH2 | r1 IH1];
    intros w Hw; cbn [lang count_lo count_hi] in *.
  - subst w. split; [simpl; lia|]. intros h H. injection H as <-.
    unfold countChars. simpl. lia.
  - destruct Hw as [c [-> Hc]].
    assert (Hf : Forall (fun c => p c = true) [c]) by now constructor.
    split.
    + destruct (class_all Q p) eqn:E; [|lia].
      now rewrite (@countChars_all Q p _ E Hf).
    + intros h H. injection H as <-.
      destruct (class_none Q p) eqn:E.
      * now rewrite (@countChars_none Q p _ E Hf).
      * apply (countChars_le Q [c]).
  - destruct Hw as [Hf [Hlo Hhi]]. split.
    + destruct (class_all Q p) eqn:E; [|lia].
      now rewrite (@countChars_all Q p _ E Hf).
    + intros h H. destruct (class_none Q p) eqn:E.
      * injection H as <-. now rewrite (@countChars_none Q p _ E Hf).
      * subst hi. pose proof (countChars_le Q w). lia.
  - destruct Hw as [u [v [-> [Hu Hv]]]].
    destruct (IH1 u Hu) as [Hl1 Hh1]. destruct (IH2 v Hv) as [Hl2 Hh2].
    rewrite countChars_app. split; [lia|].
    intros h H. destruct (count_hi Q r1) as [a|]; [|discriminate].
    destruct (count_hi Q r2) as [b|]; [|discriminate].
    injection H as <-. specialize (Hh1 a eq_refl). specialize (Hh2 b eq_refl).
    lia.
  - destruct Hw as [Hw | Hw].
    + destruct (IH1 w Hw) as [Hl Hh]. split; [lia|].
      intros h H. destruct (count_hi Q r1) as [a|]; [|discriminate].
      destruct (count_hi Q r2) as [b|]; [|discriminate].
      injection H as <-. specialize (Hh a eq_refl). lia.
    + destruct (IH2 w Hw) as [Hl Hh]. split; [lia|].
      intros h H. destruct (count_hi Q r1) as [a|]; [|discriminate].
      destruct (count_hi Q r2) as [b|]; [|discriminate].
      injection H as <-. specialize (Hh b eq_refl). lia.
  - split; [lia|]. destruct Hw as [-> | Hw].
    + intros h _. unfold countChars. simpl. lia.
    + apply (IH1 w Hw).
Qed.

(** What a scan returns are words of the expression, found in the text. *)
Lemma scan_In (r : regex) (s : text) (ms : list text) (m : text) :
  scan r s ms -> In m ms -> lang r m /\ m <> [] /\ substring m s.
Proof.
  induction 1 as [r s Hno | r gap m0 rest ms Hgap Hm Hne Hrest IH];
    intros Hin; [contradiction|].
  destruct Hin as [<- | Hin].
  - repeat split; [assumption | assumption | now exists gap, rest].
  - destruct (IH Hin) as [Hl [Hn [pre [post ->]]]].
    repeat split; [assumption | assumption|].
    exists (gap ++ m0 ++ pre), post. now rewrite <- !app_assoc.
Qed.

(** If every word has at least [k] characters in [Q], the text has at
    least [k] of them per match. *)
Lemma scan_count (Q : ascii -> bool) (k : nat) (r : regex) (s : text)
  (ms : list text) :
  (forall m, lang r m -> k <= countChars Q m) ->
  scan r s ms -> k * length ms <= countChars Q s.
Proof.
  intros Hk. induction 1 as [r s Hno | r gap m rest ms Hgap Hm Hne Hrest IH].
  - simpl. lia.
  - rewrite !countChars_app. specialize (IH Hk). specialize (Hk m Hm).
    simpl. lia.
Qed.

Lemma countChars_zero (Q : ascii -> bool) (w : text) :
  countChars Q w = 0 <-> Forall (fun c => Q c = false) w.
Proof.
  unfold countChars. induction w as [|c w IH]; simpl.
  - split; [constructor | reflexivity].
  - destruct (Q c) eqn:E; simpl.
    + split; [discriminate|]. intros H. inversion H; congruence.
    + rewrite IH. split; [now constructor | intros H; now inversion H].
Qed.

Lemma countChars_pos (Q : ascii -> bool) (w : text) :
  1 <= countChars Q w -> exists c, In c w /\ Q c = true.
Proof.
  unfold countChars. intros H.
  destruct (filter Q w) as [|c l] eqn:E; [simpl in H; lia|].
  assert (Hin : In c (filter Q w)) by (rewrite E; now left).
  apply filter_In in Hin. now exists c.
Qed.

End ExtractorContents.

(** X15. Every extracted email holds exactly one "@" and no white space;
    the text has at least one "@" per extracted email, so a text without
    "@" yields none. *)
Theorem extractEmails_contents (t : text) :
  Forall (fun email =>
            countChars (is_char "@") email = 1
            /\ Forall (fun c => is_space c = false) email
            /\ substring email t)
         (extractEmails t)
  /\ length (extractEmails t) <= countChars (is_char "@") t.
Proof.
  pose proof (@matchAll_scan emailRegex eq_refl t) as Hscan.
  assert (Hat : forall m, lang emailRegex m -> countChars (is_char "@") m = 1).
  { intros m Hm. destruct (count_range (is_char "@") _ _ Hm) as [Hlo Hhi].
    specialize (Hhi 1 eq_refl).
    change (count_lo (is_char "@") emailRegex) with 1 in Hlo. lia. }
  split.
  - apply Forall_forall. intros m Hin.
    destruct (@scan_In _ _ _ _ Hscan Hin) as [Hm [_ Hsub]].
    split; [now apply Hat | split; [|assumption]].
    apply countChars_zero.
    destruct (count_range is_space _ _ Hm) as [_ Hhi].
    specialize (Hhi 0 eq_refl). lia.
  - pose proof (@scan_count (is_char "@") 1 emailRegex t _
                  (fun m Hm => eq_ind_r (fun n => 1 <= n) (le_n 1) (Hat m Hm))
                  Hscan) as H.
    unfold extractEmails. lia.
Qed.

(** X16. Every extracted phone number holds 10 or 11 digits; the text has
    at least 10 digits per extracted number, so a text with fewer than 10
    digits yields none. *)
Theorem extractPhoneNumbers_contents (t : text) :
  Forall (fun number =>
            10 <= countChars is_digit number <= 11
            /\ substring number t)
         (extractPhoneNumbers t)
  /\ 10 * length (extractPhoneNumbers t) <= countChars is_digit t.
Proof.
  pose proof (@matchAll_scan phoneRegex eq_refl t) as Hscan.
  assert (Hd : forall m, lang phoneRegex m ->
                         10 <= countChars is_digit m <= 11).
  { intros m Hm. destruct (count_range is_digit _ _ Hm) as [Hlo Hhi].
    specialize (Hhi 11 eq_refl).
    change (count_lo is_digit phoneRegex) with 10 in Hlo. lia. }
  split.
  - apply Forall_forall. intros m Hin.
    destruct (@scan_In _ _ _ _ Hscan Hin) as [Hm [_ Hsub]].
    split; [now apply Hd | assumption].
  - apply (@scan_count is_digit 10 phoneRegex t _); [|exact Hscan].
    intros m Hm. now apply Hd.
Qed.

(** X17. Every extracted website holds a dot, no "@" and no white space;
    a text without a dot yields none. *)
Theorem extractWebsites_contents (t : text) :
  Forall (fun site =>
            In "."%char site
            /\ ~ In "@"%char site
            /\ Forall (fun c => is_space c = false) site
            /\ substring site t)
         (extractWebsites t)
  /\ length (extractWebsites t) <= countChars (is_char ".") t.
Proof.
  pose proof (@matchAll_scan websiteRegex eq_refl t) as Hscan.
  assert (Hdot : forall m, lang websiteRegex m ->
                           1 <= countChars (is_char ".") m).
  { intros m Hm. destruct (count_range (is_char ".") _ _ Hm) as [Hlo _].
    exact Hlo. }
  split.
  - apply Forall_forall. intros m Hin.
    destruct (@scan_In _ _ _ _ Hscan Hin) as [Hm [_ Hsub]].
    split; [|split; [|split; [|assumption]]].
    + destruct (countChars_pos _ _ (Hdot m Hm)) as [c [Hc Hq]].
      apply Ascii.eqb_eq in Hq. now subst c.
    + destruct (count_range (is_char "@") _ _ Hm) as [_ Hhi].
      specialize (Hhi 0 eq_refl).
      assert (Hz : countChars (is_char "@") m = 0) by lia.
      apply countChars_zero in Hz. rewrite Forall_forall in Hz.
      intros Hat. specialize (Hz _ Hat). unfold is_char in Hz.
      now rewrite Ascii.eqb_refl in Hz.
    + apply countChars_zero.
      destruct (count_range is_space _ _ Hm) as [_ Hhi].
      specialize (Hhi 0 eq_refl). lia.
  - pose proof (@scan_count (is_char ".") 1 websiteRegex t _ Hdot Hscan) as H.
    unfold extractWebsites. lia.
Qed.

Section AddressShape.

Lemma lang_alts (rs : list regex) (x : text) :
  lang (alts rs) x -> exists r, In r rs /\ lang r x.
Proof.
  induction rs as [|r rest IH]; cbn [alts].
  - cbn [lang]. intros [c [_ H]]. discriminate.
  - destruct rest as [|r' rest].
    + intros H. exists r. split; [now left | assumption].
    + cbn [lang]. intros [H | H].
      * exists r. split; [now left | assumption].
      * destruct (IH H) as [q [Hq Hl]]. exists q. split; [now right | assumption].
Qed.

Lemma lang_lit_i (s x : text) :
  lang (lit_i s) x -> toLowerCase x = toLowerCase s.
Proof.
  unfold lit_i. revert x. induction s as [|a s IH]; intros x; cbn [map seqs].
  - cbn [lang]. now intros ->.
  - destruct s as [|b s].
    + cbn [map lang chr_i]. intros [c [-> Hc]]. apply Ascii.eqb_eq in Hc.
      simpl. now rewrite Hc.
    + change (map chr_i (b :: s)) with (chr_i b :: map chr_i s).
      cbn [lang chr_i]. intros [u [v [-> [[c [-> Hc]] Hv]]]].
      apply Ascii.eqb_eq in Hc. specialize (IH v Hv).
      unfold toLowerCase in *.
      change (map lower_char ([c] ++ v))
        with (lower_char c :: map lower_char v).
      change (map lower_char (a :: b :: s))
        with (lower_char a :: map lower_char (b :: s)).
      now rewrite Hc, IH.
Qed.

Lemma address_word (w : text) :
  lang addressRegex w ->
  (exists d rest, w = d :: rest /\ is_digit d = true)
  /\ (exists body ending suffix,
         w = body ++ ending
         /\ In suffix streetSuffixes
         /\ toLowerCase ending = toLowerCase suffix).
Proof.
  unfold addressRegex. cbn [seqs]. cbn [lang plus].
  intros [u [v [-> [[Hu [Hlen _]] [u2 [v2 [-> [_ [u3 [v3 [-> [_ Hx]]]]]]]]]]]].
  split.
  - destruct u as [|d u]; [simpl in Hlen; lia|].
    exists d, (u ++ u2 ++ u3 ++ v3). split; [reflexivity|].
    now inversion Hu.
  - apply lang_alts in Hx. destruct Hx as [r [Hr Hx]].
    apply in_map_iff in Hr. destruct Hr as [suffix [<- Hs]].
    apply lang_lit_i in Hx.
    exists (u ++ u2 ++ u3), v3, suffix.
    split; [now rewrite <- !app_assoc | now split].
Qed.

End AddressShape.

(** X18. Every extracted address starts with a digit and ends, whatever
    the case, with one of the fifteen street suffixes; a text without a
    digit yields none. *)
Theorem extractAddresses_contents (t : text) :
  Forall (fun a =>
            (exists d rest, a = d :: rest /\ is_digit d = true)
            /\ (exists body ending suffix,
                   a = body ++ ending
                   /\ In suffix streetSuffixes
                   /\ toLowerCase ending = toLowerCase suffix)
            /\ substring a t)
         (extractAddresses t)
  /\ length (extractAddresses t) <= countChars is_digit t.
Proof.
  pose proof (@matchAll_scan addressRegex eq_refl t) as Hscan.
  split.
  - apply Forall_forall. intros m Hin.
    destruct (@scan_In _ _ _ _ Hscan Hin) as [Hm [_ Hsub]].
    destruct (address_word Hm) as [Hd Hs]. now repeat split.
  - assert (Hd : forall m, lang addressRegex m -> 1 <= countChars is_digit m).
    { intros m Hm. destruct (count_range is_digit _ _ Hm) as [Hlo _].
      exact Hlo. }
    pose proof (@scan_count is_digit 1 addressRegex t _ Hd Hscan) as H.
    unfold extractAddresses. lia.
Qed.

(** ** More on the places search *)

Section PlacesMore.

Import Places PlacesOptions.

Variable repeatThrows : Json -> bool.
Variable apiKey : option text.
Variable textSearch : text -> Fetched SearchData.
Variable placeDetails : option Json -> Fetched DetailsData.
Variable businessName : text.
Variable address : option text.

(** The search fails to name a best match exactly when both entry points
    give up before any result is read. *)
Lemma no_best_match :
  (forall bestMatch,
      ~ searchSucceeds apiKey textSearch businessName address bestMatch) ->
  searchBusiness repeatThrows apiKey textSearch placeDetails businessName
    address = None
  /\ getMultiplePlacesOptions apiKey textSearch businessName address = [].
Proof.
  intros Hno.
  unfold searchBusiness, searchBusinessBody, getMultiplePlacesOptions,
    getMultiplePlacesOptionsBody, searchSucceeds in *.
  destruct (truthy apiKey) eqn:Ek; cbn [negb]; [|now split].
  destruct (textSearch (buildQuery businessName address)) as [|ok json] eqn:Es;
    cbn [awaitFetch bind fst snd]; [now split|].
  destruct ok; cbn [negb]; [|now split].
  destruct json as [data|]; cbn [awaitJson bind]; [|now split].
  destruct (text_eqb (search_status data) (str "OK")) eqn:Eo;
    cbn [negb orb]; [|now split].
  apply text_eqb_true in Eo.
  destruct (results data) as [[|bestMatch rest]|] eqn:Er; try (now split).
  exfalso. apply (Hno bestMatch). split; [reflexivity|].
  now exists data, rest.
Qed.

Lemma options_after_search (bestMatch : PlacesResult) :
  searchSucceeds apiKey textSearch businessName address bestMatch ->
  exists data rest,
    textSearch (buildQuery businessName address) = Responded true (Some data)
    /\ results data = Some (bestMatch :: rest)
    /\ getMultiplePlacesOptions apiKey textSearch businessName address
       = map processedOption (firstn 10 (bestMatch :: rest)).
Proof.
  intros [Hkey [data [rest [Hs [Hstatus Hres]]]]].
  exists data, rest. split; [assumption | split; [assumption|]].
  unfold getMultiplePlacesOptions, getMultiplePlacesOptionsBody.
  rewrite Hkey, Hs. cbn [negb awaitFetch bind fst snd awaitJson].
  rewrite Hstatus, Hres.
  replace (text_eqb (str "OK") (str "OK")) with true
    by (symmetry; now apply text_eqb_true).
  reflexivity.
Qed.

Lemma best_match_unique (b1 b2 : PlacesResult) :
  searchSucceeds apiKey textSearch businessName address b1 ->
  searchSucceeds apiKey textSearch businessName address b2 ->
  b1 = b2.
Proof.
  intros [_ [d1 [r1 [Hs1 [_ Hr1]]]]] [_ [d2 [r2 [Hs2 [_ Hr2]]]]].
  rewrite Hs1 in Hs2. injection Hs2 as <-. rewrite Hr1 in Hr2.
  now injection Hr2.
Qed.

(** The log of the search results throws exactly when the [types] of one
    of them is a truthy value other than an array. *)
Lemma forEach_logSearchResult (found : list PlacesResult) :
  (forEach logSearchResult found = Return tt
   /\ Forall (fun p => notArray (types p) = false) found)
  \/ (forEach logSearchResult found = Throw
      /\ Exists (fun p => notArray (types p) = true) found).
Proof.
  induction found as [|p rest IH]; [left; now split|].
  cbn [forEach]. unfold logSearchResult at 1 3, arrayCall.
  destruct (notArray (types p)) eqn:E; cbn [bind].
  - right. split; [reflexivity | now left].
  - destruct IH as [[-> H] | [-> H]].
    + left. split; [reflexivity | now constructor].
    + right. split; [reflexivity | now right].
Qed.

(** The log of the details result throws exactly when the price level,
    the types or the opening hours cannot be printed. *)
Lemma logDetails_cases (r : PlacesResult) :
  let unlogged :=
    (exists x, price_level r = Some x /\ repeatThrows x = true)
    \/ notArray (types r) = true
    \/ notArray (Places.weekday_text (opening_hours r)) = true in
  (logDetails repeatThrows r = Return tt /\ ~ unlogged)
  \/ (logDetails repeatThrows r = Throw /\ unlogged).
Proof.
  cbv zeta. unfold logDetails, arrayCall.
  destruct (price_level r) as [x|] eqn:Ep.
  - destruct (repeatThrows x) eqn:Ex; cbn [bind].
    + right. split; [reflexivity|]. left. now exists x.
    + destruct (notArray (types r)) eqn:Et; cbn [bind];
        [right; split; [reflexivity | now right; left]|].
      destruct (notArray (Places.weekday_text (opening_hours r))) eqn:Ew;
        [right; split; [reflexivity | now right; right]|].
      left. split; [reflexivity|].
      intros [[y [Hy Hr]] | [H | H]]; try discriminate.
      injection Hy as <-. congruence.
  - cbn [bind].
    destruct (notArray (types r)) eqn:Et; cbn [bind];
      [right; split; [reflexivity | now right; left]|].
    destruct (notArray (Places.weekday_text (opening_hours r))) eqn:Ew;
      [right; split; [reflexivity | now right; right]|].
    left. split; [reflexivity|].
    intros [[y [Hy Hr]] | [H | H]]; discriminate.
Qed.

End PlacesMore.

(** A second search result whose [types] is a string: the log of the
    results throws, and the search returns [null] although both requests
    succeeded. *)
Example types_as_text_fails_search (repeatThrows : Places.Json -> bool) :
  Places.searchBusiness repeatThrows (Some (str "key"))
    (searchOf [joesPlace;
               joesPlaceWith (Some (Places.JStr (str "cafe"))) None None])
    (detailsOf joesPlace) (str "Joe's Coffee") None
  = None.
Proof. reflexivity. Qed.

(** Opening hours whose [weekday_text] is a string: the log of the
    details result throws. *)
Example hours_as_text_fails_search (repeatThrows : Places.Json -> bool) :
  Places.searchBusiness repeatThrows (Some (str "key")) oneResult
    (detailsOf (joesPlaceWith cafeTypes
                  (hoursOf (Places.JStr (str "Mon-Fri 8-5"))) None))
    (str "Joe's Coffee") None
  = None.
Proof. reflexivity. Qed.

(** A price level is printed with [repeat]: the details result is
    returned when that call succeeds, [null] when it throws. *)
Example price_level_decides (repeatThrows : Places.Json -> bool)
  (price_level : Places.Json) :
  let r := joesPlaceWith cafeTypes
             (hoursOf (Places.JArr [Places.JStr (str "Monday: 8-5")]))
             (Some price_level) in
  Places.searchBusiness repeatThrows (Some (str "key")) oneResult
    (detailsOf r) (str "Joe's Coffee") None
  = if repeatThrows price_level then None else Some r.
Proof.
  cbv zeta. unfold Places.searchBusiness, Places.searchBusinessBody.
  cbn -[joesPlaceWith]. unfold Places.logDetails.
  cbn [joesPlaceWith Places.price_level].
  destruct (repeatThrows price_level); reflexivity.
Qed.

(** X19. What [searchBusiness] returns, case by case.  It returns a place
    only after a successful text search all of whose results could be
    logged, and that place is the fallback record of the best match
    (details response not ok), the best match itself (details status not
    OK), or the details result, which then could be logged as well.  It
    returns [null] when the text search names no best match, when the
    [types] of some search result is a truthy value other than an array,
    when the details request is rejected, its body unreadable or its OK
    body without a result, or when the details result cannot be logged:
    ['$'.repeat(price_level + 1)] throws, or its [types] or the
    [weekday_text] of its opening hours is a truthy value other than an
    array. *)
Theorem searchBusiness_cases (repeatThrows : Places.Json -> bool)
  (apiKey : option text)
  (textSearch : text -> Places.Fetched Places.SearchData)
  (placeDetails : option Places.Json -> Places.Fetched Places.DetailsData)
  (businessName : text) (address : option text) :
  let found := Places.searchSucceeds apiKey textSearch businessName address in
  let listed := fun bestMatch rest =>
    exists data,
      textSearch (Places.buildQuery businessName address)
      = Places.Responded true (Some data)
      /\ Places.results data = Some (bestMatch :: rest) in
  let unlogged := fun r =>
    (exists x, Places.price_level r = Some x /\ repeatThrows x = true)
    \/ Places.notArray (Places.types r) = true
    \/ Places.notArray (Places.weekday_text (Places.opening_hours r)) = true in
  match Places.searchBusiness repeatThrows apiKey textSearch placeDetails
          businessName address with
  | Some r =>
      exists bestMatch rest,
        found bestMatch
        /\ listed bestMatch rest
        /\ Forall (fun p => Places.notArray (Places.types p) = false)
             (bestMatch :: rest)
        /\ ((r = Places.fallbackResult bestMatch
             /\ exists json,
                 placeDetails (Places.place_id bestMatch)
                 = Places.Responded false json)
            \/ (r = bestMatch
                /\ exists d,
                    placeDetails (Places.place_id bestMatch)
                    = Places.Responded true (Some d)
                    /\ Places.details_status d <> str "OK")
            \/ (exists d,
                   placeDetails (Places.place_id bestMatch)
                   = Places.Responded true (Some d)
                   /\ Places.details_status d = str "OK"
                   /\ Places.result d = Some r
                   /\ ~ unlogged r))
  | None =>
      (forall bestMatch, ~ found bestMatch)
      \/ exists bestMatch rest,
          found bestMatch
          /\ listed bestMatch rest
          /\ (Exists (fun p => Places.notArray (Places.types p) = true)
                (bestMatch :: rest)
              \/ placeDetails (Places.place_id bestMatch) = Places.Rejected
              \/ placeDetails (Places.place_id bestMatch)
                 = Places.Responded true None
              \/ exists d,
                  placeDetails (Places.place_id bestMatch)
                  = Places.Responded true (Some d)
                  /\ Places.details_status d = str "OK"
                  /\ (Places.result d = None
                      \/ exists r, Places.result d = Some r /\ unlogged r))
  end.
Proof.
  cbv zeta.
  unfold Places.searchBusiness, Places.searchBusinessBody,
    Places.searchSucceeds.
  destruct (Places.truthy apiKey) eqn:Ek; cbn [negb];
    [|left; intros b [H _]; discriminate].
  destruct (textSearch (Places.buildQuery businessName address))
    as [|ok json] eqn:Es; cbn [Places.awaitFetch Places.bind fst snd];
    [left; intros b [_ [d [r [H _]]]]; discriminate|].
  destruct ok; cbn [negb];
    [|left; intros b [_ [d [r [H _]]]]; discriminate].
  destruct json as [data|]; cbn [Places.awaitJson Places.bind];
    [|left; intros b [_ [d [r [H _]]]]; discriminate].
  destruct (text_eqb (Places.search_status data) (str "OK")) eqn:Eo;
    cbn [negb].
  2:{ left. intros b [_ [d [r [H [Hst _]]]]]. injection H as <-.
      apply text_eqb_false in Eo. contradiction. }
  apply text_eqb_true in Eo.
  destruct (Places.results data) as [[|bestMatch rest]|] eqn:Er.
  1,3: left; intros b [_ [d [r [H [_ Hr]]]]]; injection H as <-; congruence.
  assert (Hfound : true = true /\
                   exists d r,
                     Places.Responded true (Some data)
                     = Places.Responded true (Some d)
                     /\ Places.search_status d = str "OK"
                     /\ Places.results d = Some (bestMatch :: r)).
  { split; [reflexivity|]. now exists data, rest. }
  assert (Hlisted : exists d,
             Places.Responded true (Some data)
             = Places.Responded true (Some d)
             /\ Places.results d = Some (bestMatch :: rest))
    by now exists data.
  destruct (forEach_logSearchResult (bestMatch :: rest)) as [[-> Hall] | [-> Hex]];
    cbn [Places.bind].
  2:{ right. exists bestMatch, rest. split; [exact Hfound|].
      split; [exact Hlisted | now left]. }
  destruct (placeDetails (Places.place_id bestMatch)) as [|ok json] eqn:Ed;
    cbn [Places.awaitFetch Places.bind fst snd].
  - right. exists bestMatch, rest. split; [exact Hfound|].
    split; [exact Hlisted|]. right. now left.
  - destruct ok; cbn [negb].
    + destruct json as [d|]; cbn [Places.awaitJson Places.bind].
      * destruct (text_eqb (Places.details_status d) (str "OK")) eqn:Eds;
          cbn [negb].
        -- apply text_eqb_true in Eds.
           destruct (Places.result d) as [r|] eqn:Erd.
           ++ destruct (logDetails_cases repeatThrows r) as [[-> Hok] | [-> Hbad]];
                cbn [Places.bind].
              ** exists bestMatch, rest. split; [exact Hfound|].
                 split; [exact Hlisted|]. split; [exact Hall|].
                 right. right. now exists d.
              ** right. exists bestMatch, rest. split; [exact Hfound|].
                 split; [exact Hlisted|]. right. right. right.
                 exists d. split; [exact Ed|]. split; [assumption|].
                 right. now exists r.
           ++ right. exists bestMatch, rest. split; [exact Hfound|].
              split; [exact Hlisted|]. right. right. right.
              exists d. split; [exact Ed|]. split; [assumption|].
              now left.
        -- apply text_eqb_false in Eds. exists bestMatch, rest.
           split; [exact Hfound|]. split; [exact Hlisted|].
           split; [exact Hall|]. right. left. split; [reflexivity|].
           now exists d.
      * right. exists bestMatch, rest. split; [exact Hfound|].
        split; [exact Hlisted|]. right. right. now left.
    + exists bestMatch, rest. split; [exact Hfound|].
      split; [exact Hlisted|]. split; [exact Hall|]. left.
      split; [reflexivity|]. now exists json.
Qed.

(** X20. [getMultiplePlacesOptions] never fails and returns at most 10
    options.  It returns none exactly when the text search names no best
    match, the case in which [searchBusiness] returns [null] as well;
    otherwise its options are the first ten results, in order, each reduced
    to its basic fields and business status, the first being the best
    match of [searchBusiness]. *)
Theorem getMultiplePlacesOptions_cases (apiKey : option text)
  (textSearch : text -> Places.Fetched Places.SearchData)
  (businessName : text) (address : option text) :
  let found := Places.searchSucceeds apiKey textSearch businessName address in
  let options :=
    PlacesOptions.getMultiplePlacesOptions apiKey textSearch businessName
      address in
  length options <= 10
  /\ (options = [] <-> forall bestMatch, ~ found bestMatch)
  /\ (forall bestMatch,
         found bestMatch ->
         exists data rest,
           textSearch (Places.buildQuery businessName address)
           = Places.Responded true (Some data)
           /\ Places.results data = Some (bestMatch :: rest)
           /\ options
              = map PlacesOptions.processedOption (firstn 10 (bestMatch :: rest))
           /\ Places.sameBasicFields
                (PlacesOptions.processedOption bestMatch) bestMatch
           /\ Places.business_status (PlacesOptions.processedOption bestMatch)
              = Places.business_status bestMatch)
  /\ ((forall bestMatch, ~ found bestMatch) ->
      forall repeatThrows placeDetails,
        Places.searchBusiness repeatThrows apiKey textSearch placeDetails
          businessName address = None).
Proof.
  cbv zeta.
  assert (Hcase :
            (forall bestMatch,
                ~ Places.searchSucceeds apiKey textSearch businessName address
                    bestMatch)
            \/ exists bestMatch,
                Places.searchSucceeds apiKey textSearch businessName address
                  bestMatch).
  { unfold Places.searchSucceeds.
    destruct (Places.truthy apiKey);
      [|left; intros b [H _]; discriminate].
    destruct (textSearch (Places.buildQuery businessName address))
      as [|[|] [data|]] eqn:Es;
      try (left; intros b [_ [d [r [H _]]]]; discriminate).
    destruct (list_eq_dec ascii_dec (Places.search_status data) (str "OK"))
      as [Eo | Eo].
    2:{ left. intros b [_ [d [r [H [Hst _]]]]]. injection H as <-.
        contradiction. }
    destruct (Places.results data) as [[|bestMatch rest]|] eqn:Er.
    1,3: left; intros b [_ [d [r [H [_ Hr]]]]]; injection H as <-; congruence.
    right. exists bestMatch. split; [reflexivity|]. now exists data, rest. }
  destruct Hcase as [Hno | [bestMatch Hfound]].
  - destruct (@no_best_match (fun _ => false) apiKey textSearch
                (fun _ => Places.Rejected) businessName address Hno)
      as [_ Hopt].
    rewrite Hopt. split; [simpl; lia|]. split; [tauto|]. split.
    + intros b Hb. now apply Hno in Hb.
    + intros _ repeatThrows placeDetails.
      now apply (@no_best_match repeatThrows apiKey textSearch placeDetails).
  - destruct (options_after_search Hfound) as [data [rest [Hs [Hr Hopt]]]].
    rewrite Hopt. split; [|split; [|split]].
    + rewrite length_map, length_firstn. lia.
    + split; [discriminate|]. intros Hno. now apply Hno in Hfound.
    + intros b Hb. rewrite (best_match_unique Hb Hfound).
      exists data, rest. repeat split; assumption.
    + intros Hno. now apply Hno in Hfound.
Qed.

(** ** Formatting of business types *)

Section FormatTypes.

Import PlacesOptions.

Lemma upper_char_not_underscore (c : ascii) :
  c <> "_"%char -> upper_char c <> "_"%char.
Proof.
  assert (H : forall_ascii
                (fun c => implb (Ascii.eqb (upper_char c) "_")
                                (Ascii.eqb c "_")) = true)
    by (vm_compute; reflexivity).
  intros Hc Hu. pose proof (forall_ascii_spec _ H c) as Hi. cbv beta in Hi.
  rewrite Hu in Hi. simpl in Hi. now apply Ascii.eqb_eq in Hi.
Qed.

Lemma replaceUnderscores_clean (s : text) :
  ~ In "_"%char (replaceUnderscores s).
Proof.
  unfold replaceUnderscores. intros H. apply in_map_iff in H.
  destruct H as [c [Hc _]]. unfold is_char in Hc.
  destruct (Ascii.eqb "_" c) eqn:E; [discriminate|].
  apply Ascii.eqb_neq in E. congruence.
Qed.

Lemma capitalizeWords_from_clean (s : text) (prev : bool) :
  ~ In "_"%char s -> ~ In "_"%char (capitalizeWords_from prev s).
Proof.
  revert prev. induction s as [|c t IH]; intros prev Hs; [exact Hs|].
  cbn [capitalizeWords_from]. intros [H | H].
  - assert (Hc : c <> "_"%char) by (intros ->; apply Hs; now left).
    destruct (is_word c && negb prev); [|congruence].
    now apply upper_char_not_underscore in Hc.
  - apply (IH (is_word c)); [|exact H]. intros Hin. apply Hs. now right.
Qed.

Lemma capitalizeWords_from_length (s : text) (prev : bool) :
  length (capitalizeWords_from prev s) = length s.
Proof.
  revert prev. induction s as [|c t IH]; intros prev; simpl; [reflexivity|].
  now rewrite IH.
Qed.

Lemma readableType_clean (type : text) :
  ~ In "_"%char (readableType type)
  /\ length (readableType type) = length type.
Proof.
  unfold readableType, capitalizeWords. split.
  - apply capitalizeWords_from_clean, replaceUnderscores_clean.
  - rewrite capitalizeWords_from_length. apply length_map.
Qed.

(** The common shape of the two [formatBusinessTypes]. *)
Lemma formatted_clean (limit : nat) (fallback : text) (ts : list text) :
  fallback <> [] -> ~ In "_"%char fallback ->
  let result :=
    orElse (join (str ", ")
                 (slice 0 limit
                    (map readableType
                         (filter (fun type => negb (isGenericType type)) ts))))
           fallback in
  result <> [] /\ ~ In "_"%char result.
Proof.
  intros Hne Hclean. cbv zeta. unfold orElse.
  destruct (join _ _) as [|c rest] eqn:E; [now split|].
  split; [discriminate|]. rewrite <- E. intros Hin.
  apply in_join in Hin. destruct Hin as [Hin | [piece [Hp Hin]]].
  - vm_compute in Hin. intuition discriminate.
  - unfold slice in Hp. apply In_firstn_In in Hp. cbn [skipn] in Hp.
    apply in_map_iff in Hp. destruct Hp as [type [<- _]].
    now apply readableType_clean in Hin.
Qed.

End FormatTypes.

(** X21. Both [formatBusinessTypes] (of the places library and of the
    location selector) always return a non-empty text without any
    underscore; with no type, or only generic ones, they return their
    fallback, "Not Available" and "Business". *)
Theorem formatBusinessTypes_clean (types : option (list text)) :
  (PlacesOptions.formatBusinessTypes types <> []
   /\ ~ In "_"%char (PlacesOptions.formatBusinessTypes types)
   /\ LocationSelector.formatBusinessTypes types <> []
   /\ ~ In "_"%char (LocationSelector.formatBusinessTypes types))
  /\ (match types with
      | None => True
      | Some ts => forallb PlacesOptions.isGenericType ts = true
      end ->
      PlacesOptions.formatBusinessTypes types = str "Not Available"
      /\ LocationSelector.formatBusinessTypes types = str "Business").
Proof.
  split.
  - destruct types as [[|t ts]|];
      try (repeat split; try discriminate; vm_compute; intuition discriminate).
    unfold PlacesOptions.formatBusinessTypes,
      LocationSelector.formatBusinessTypes.
    destruct (@formatted_clean 3 (str "Not Available") (t :: ts))
      as [H1 H2]; [discriminate | vm_compute; intuition discriminate|].
    destruct (@formatted_clean 2 (str "Business") (t :: ts))
      as [H3 H4]; [discriminate | vm_compute; intuition discriminate|].
    repeat split; assumption.
  - destruct types as [[|t ts]|]; try (intros _; split; reflexivity).
    intros Hall.
    unfold PlacesOptions.formatBusinessTypes,
      LocationSelector.formatBusinessTypes.
    assert (Hf : filter (fun type => negb (PlacesOptions.isGenericType type))
                        (t :: ts) = []).
    { rewrite forallb_forall in Hall. generalize dependent (t :: ts).
      intros l Hall. induction l as [|x l IH]; [reflexivity|].
      simpl. rewrite (Hall x) by now left. simpl. apply IH.
      intros y Hy. apply Hall. now right. }
    rewrite Hf. split; reflexivity.
Qed.

Lemma formatBusinessTypes_clean_witness :
  PlacesOptions.formatBusinessTypes
    (Some [str "establishment"; str "point_of_interest"])
  = str "Not Available"
  /\ LocationSelector.formatBusinessTypes
       (Some [str "establishment"; str "point_of_interest"])
     = str "Business".
Proof.
  apply (proj2 (formatBusinessTypes_clean
                  (Some [str "establishment"; str "point_of_interest"]))).
  reflexivity.
Defined.

(** ** The business-name list sent for processing *)

Section NamesFirst.

Import Workflow.

Lemma filter_other_names (b : text) (names : list text) :
  ~ In b names ->
  filter (fun n => negb (text_eqb n b)) names = names.
Proof.
  induction names as [|x names IH]; intros H; [reflexivity|]. simpl.
  destruct (text_eqb x b) eqn:E.
  - apply text_eqb_true in E. exfalso. apply H. now left.
  - simpl. rewrite IH; [reflexivity|]. intros Hin. apply H. now right.
Qed.

Lemma filter_other_names_out (b : text) (names : list text) :
  ~ In b (filter (fun n => negb (text_eqb n b)) names).
Proof.
  intros H. apply filter_In in H. destruct H as [_ H].
  apply negb_true_iff, text_eqb_false in H. congruence.
Qed.

Lemma businessNameFirst_idempotent (b : text) (names : list text) :
  businessNameFirst b (businessNameFirst b names) = businessNameFirst b names.
Proof.
  unfold businessNameFirst. f_equal. cbn [filter].
  replace (text_eqb b b) with true by (symmetry; now apply text_eqb_true).
  cbn [negb]. apply filter_other_names, filter_other_names_out.
Qed.

End NamesFirst.

(** X22. The name list sent for processing starts with the chosen name,
    holds it nowhere else, and keeps the other names in their order;
    building it twice, as the confirmation path does, changes nothing. *)
Theorem businessNameFirst_spec (businessName : text) (names : list text) :
  let sent := Workflow.businessNameFirst businessName names in
  hd_error sent = Some businessName
  /\ ~ In businessName (tl sent)
  /\ filter (fun n => negb (text_eqb n businessName)) sent
     = filter (fun n => negb (text_eqb n businessName)) names
  /\ Workflow.businessNameFirst businessName sent = sent
  /\ (forall (L : Type) (textData : ExtractedText),
         @Workflow.confirmationRequest L textData businessName
         = Workflow.requestBody textData businessName None).
Proof.
  cbv zeta. split; [reflexivity|]. split; [apply filter_other_names_out|].
  split; [|split].
  - unfold Workflow.businessNameFirst. cbn [filter].
    replace (text_eqb businessName businessName) with true
      by (symmetry; now apply text_eqb_true).
    cbn [negb]. apply filter_other_names, filter_other_names_out.
  - apply businessNameFirst_idempotent.
  - intros L textData.
    unfold Workflow.confirmationRequest, Workflow.requestBody,
      Workflow.withBusinessNameFirst.
    cbn [businessNames addresses phoneNumbers websites emails otherText
         confidence].
    now rewrite businessNameFirst_idempotent.
Qed.

(** X23. On the automatic path the request carries the extracted data
    unchanged: the names returned by the OCR entry point are all different,
    so moving the first one to the front is the identity. *)
Theorem autoContinue_unchanged (L : Type) (detections : list Detection) :
  match extractTextWithEnhancedVision detections with
  | None => detections = []
  | Some textData =>
      match @Workflow.autoContinueRequest L textData with
      | Some request =>
          Workflow.extractedText request = textData
          /\ Workflow.selectedLocation request = None
      | None => businessNames textData = []
      end
  end.
Proof.
  destruct detections as [|d rest]; [reflexivity|].
  cbn [extractTextWithEnhancedVision].
  unfold Workflow.autoContinueRequest. cbn [businessNames].
  pose proof (apart_names_NoDup
                (ranked_apart (fullTextOf (d :: rest)))) as Hnd.
  change (map name (firstn 3 (sortBy byScoreDesc
                                (uniqueCandidates (fullTextOf (d :: rest))))))
    with (extractBusinessNamesWithContext (fullTextOf (d :: rest))) in Hnd.
  destruct (extractBusinessNamesWithContext (fullTextOf (d :: rest)))
    as [|first others] eqn:En; [reflexivity|].
  split; [|reflexivity].
  unfold Workflow.requestBody, Workflow.withBusinessNameFirst.
  cbn [Workflow.extractedText businessNames addresses phoneNumbers websites
       emails otherText confidence].
  unfold Workflow.businessNameFirst. cbn [filter].
  replace (text_eqb first first) with true
    by (symmetry; now apply text_eqb_true).
  cbn [negb]. inversion Hnd as [|? ? Hnotin _]; subst.
  now rewrite (@filter_other_names first others Hnotin).
Qed.

(** X24. A typed business name is submitted only when something other
    than white space was typed; what is submitted is the typed text without
    white space at either end, and the request then made carries that one
    name with a High business-name level. *)
Theorem manual_submission (typed : text) (onManualSubmit : bool) :
  match FileUpload.handleManualSubmit typed onManualSubmit with
  | Some submitted =>
      onManualSubmit = true
      /\ submitted = trim typed /\ submitted <> [] /\ trimmed submitted
      /\ forall L : Type,
          businessNames
            (Workflow.extractedText (@Workflow.manualRequest L submitted))
          = [submitted]
          /\ businessName
               (confidence
                  (Workflow.extractedText (@Workflow.manualRequest L submitted)))
             = High
  | None =>
      onManualSubmit = false
      \/ Forall (fun c => is_space c = true) typed
  end.
Proof.
  unfold FileUpload.handleManualSubmit.
  destruct (trim typed) as [|c rest] eqn:Et.
  - right. unfold trim in Et.
    destruct (trimStart_suffix typed) as [ws [Hs Hws]].
    destruct (trimEnd_prefix (trimStart typed)) as [ws' [Hs' Hws']].
    rewrite Et in Hs'. simpl in Hs'. rewrite Hs, Hs'.
    apply Forall_app. now split.
  - destruct onManualSubmit; [|now left].
    split; [reflexivity|]. split; [reflexivity|]. split; [discriminate|].
    split; [rewrite <- Et; apply trim_trimmed|].
    intros L. split; [|reflexivity].
    unfold Workflow.manualRequest, Workflow.requestBody,
      Workflow.withBusinessNameFirst, Workflow.mockExtractedText.
    cbn [Workflow.extractedText businessNames].
    unfold Workflow.businessNameFirst. cbn [filter].
    replace (text_eqb (c :: rest) (c :: rest)) with true
      by (symmetry; now apply text_eqb_true).
    reflexivity.
Qed.

(** ** The shapes of the pattern generator *)

Section PatternShapes.

Lemma upper_letter (c : ascii) : is_upper c = true -> is_letter c = true.
Proof. unfold is_letter. now intros ->. Qed.

Lemma lower_letter (c : ascii) : is_lower c = true -> is_letter c = true.
Proof. unfold is_letter. intros ->. apply orb_true_r. Qed.

Lemma properWord_shape (w : text) : lang properWord w -> capitalWord w.
Proof.
  unfold properWord, plus. cbn [lang].
  intros [u [v [-> [[c [-> Hc]] [Hv _]]]]]. split.
  - constructor; [now apply upper_letter|].
    eapply Forall_impl; [|exact Hv]. intros a. apply lower_letter.
  - now exists c, v.
Qed.

Lemma capsWord_shape (w : text) : lang capsWord w -> capitalWord w.
Proof.
  unfold capsWord, plus. cbn [lang]. intros [Hw [Hlen _]]. split.
  - eapply Forall_impl; [|exact Hw]. intros a. apply upper_letter.
  - destruct w as [|c rest]; [simpl in Hlen; lia|].
    exists c, rest. split; [reflexivity | now inversion Hw].
Qed.

Lemma letter_not_space (c : ascii) :
  is_letter c = true -> Ascii.eqb c " " = false.
Proof.
  intros H. destruct (Ascii.eqb c " ") eqn:E; [|reflexivity].
  apply Ascii.eqb_eq in E. subst c. discriminate.
Qed.

Lemma split_word (w : text) :
  Forall (fun c => is_letter c = true) w -> split " " w = [w].
Proof.
  induction 1 as [|c w Hc Hw IH]; [reflexivity|].
  cbn [split]. now rewrite (letter_not_space _ Hc), IH.
Qed.

Lemma split_word_app (w rest : text) :
  Forall (fun c => is_letter c = true) w ->
  split " " (w ++ " "%char :: rest) = w :: split " " rest.
Proof.
  induction 1 as [|c w Hc Hw IH]; [reflexivity|].
  cbn [app split]. now rewrite (letter_not_space _ Hc), IH.
Qed.

(** The words of one of the four shapes. *)
Lemma pattern_shape (p : pattern) (c : text) :
  In p patterns -> lang (body p) c ->
  exists ws,
    (length ws = 2 \/ length ws = 3)
    /\ Forall capitalWord ws
    /\ c = join (str " ") ws
    /\ split " " c = ws.
Proof.
  assert (H2 : forall w1 w2,
             capitalWord w1 -> capitalWord w2 ->
             exists ws,
               (length ws = 2 \/ length ws = 3)
               /\ Forall capitalWord ws
               /\ w1 ++ [" "%char] ++ w2 = join (str " ") ws
               /\ split " " (w1 ++ [" "%char] ++ w2) = ws).
  { intros w1 w2 W1 W2. exists [w1; w2].
    split; [now left|].
    split; [constructor; [exact W1|]; constructor; [exact W2|]; constructor|].
    split; [reflexivity|]. cbn [app].
    rewrite split_word_app by apply W1. now rewrite split_word by apply W2. }
  assert (H3 : forall w1 w2 w3,
             capitalWord w1 -> capitalWord w2 -> capitalWord w3 ->
             exists ws,
               (length ws = 2 \/ length ws = 3)
               /\ Forall capitalWord ws
               /\ w1 ++ [" "%char] ++ w2 ++ [" "%char] ++ w3
                  = join (str " ") ws
               /\ split " " (w1 ++ [" "%char] ++ w2 ++ [" "%char] ++ w3) = ws).
  { intros w1 w2 w3 W1 W2 W3. exists [w1; w2; w3].
    split; [now right|].
    split; [constructor; [exact W1|]; constructor; [exact W2|];
            constructor; [exact W3|]; constructor|].
    split; [reflexivity|]. cbn [app].
    rewrite split_word_app by apply W1.
    rewrite split_word_app by apply W2.
    now rewrite split_word by apply W3. }
  cbn [patterns In].
  intros [<- | [<- | [<- | [<- | []]]]]; cbn [body seqs]; cbn [lang chr].
  - intros [u [v [-> [Hu [s [w [-> [[a [-> Ha]] Hw]]]]]]]].
    apply Ascii.eqb_eq in Ha. subst a.
    apply H2; now apply properWord_shape.
  - intros [u [v [-> [Hu [s [w [-> [[a [-> Ha]] Hw]]]]]]]].
    apply Ascii.eqb_eq in Ha. subst a.
    apply H2; now apply capsWord_shape.
  - intros [u [v [-> [Hu [s [w [-> [[a [-> Ha]]
             [u2 [v2 [-> [Hu2 [s2 [w2 [-> [[b [-> Hb]] Hw2]]]]]]]]]]]]]]]].
    apply Ascii.eqb_eq in Ha, Hb. subst a b.
    apply H3; now apply properWord_shape.
  - intros [u [v [-> [Hu [s [w [-> [[a [-> Ha]]
             [u2 [v2 [-> [Hu2 [s2 [w2 [-> [[b [-> Hb]] Hw2]]]]]]]]]]]]]]]].
    apply Ascii.eqb_eq in Ha, Hb. subst a b.
    apply H3; now apply capsWord_shape.
Qed.

Lemma flat_map_length_le (A B : Type) (f : A -> list B) (k : nat)
  (l : list A) :
  (forall x, length (f x) <= k) -> length (flat_map f l) <= k * length l.
Proof.
  intros Hf. induction l as [|x l IH]; simpl; [lia|].
  rewrite length_app. specialize (Hf x). lia.
Qed.

Lemma contextMatch_length (indicators : list (list text)) (x : text) :
  length (contextMatch indicators x) <= 1.
Proof.
  induction indicators as [|w ws IH]; cbn [contextMatch]; [simpl; lia|].
  destruct (forallb _ w && _); [simpl; lia | exact IH].
Qed.

Lemma patternMatch_length (ps : list pattern) (x : text) :
  length (patternMatch ps x) <= 1.
Proof.
  induction ps as [|p ps IH]; cbn [patternMatch]; [simpl; lia|].
  destruct (test p x && _); [simpl; lia | exact IH].
Qed.

Lemma when_length_le (A : Type) (b : bool) (x : A) : length (when b x) <= 1.
Proof. destruct b; simpl; lia. Qed.

End PatternShapes.

(** X25. Every candidate of the pattern generator consists of two or three
    words separated by single spaces, each made of Latin letters and
    starting with a capital; these are the words the scorer counts. *)
Theorem pattern_candidates_words (lines : list text) :
  Forall (fun c =>
            exists ws,
              (length ws = 2 \/ length ws = 3)
              /\ Forall capitalWord ws
              /\ c = join (str " ") ws
              /\ split " " c = ws
              /\ length c <= 35)
         (extractWithPatternMatching lines).
Proof.
  apply Forall_forall. intros c Hc.
  unfold extractWithPatternMatching in Hc. apply in_flat_map in Hc.
  destruct Hc as [i [_ Hc]]. apply in_flat_map in Hc.
  destruct Hc as [j [_ Hc]]. apply in_patternMatch in Hc.
  destruct Hc as [-> [Hlen [p [Hp Ht]]]].
  assert (Hl : lang (body p) (join (str " ") (slice i j lines))).
  { cbn [patterns In] in Hp.
    repeat (destruct Hp as [<- | Hp]; [now apply test_full in Ht|]).
    contradiction. }
  destruct (@pattern_shape p _ Hp Hl) as [ws [Hn [Hw [Hj Hs]]]].
  exists ws. repeat split; assumption.
Qed.

(** X26. The number of candidates is bounded: at most 15 from the
    positional generator whatever the number of lines, at most 4 per line
    from the context generator and at most 3 per line from the pattern
    generator. *)
Theorem generators_bounded (lines : list text) :
  length (extractWithPositionalWeighting lines) <= 15
  /\ length (extractWithBusinessContext lines) <= 4 * length lines
  /\ length (extractWithPatternMatching lines) <= 3 * length lines.
Proof.
  split; [|split].
  - unfold extractWithPositionalWeighting.
    pose proof (@flat_map_length_le _ _ (positionalAt lines) 3
                  (seq 0 (Nat.min (length lines) 5))) as H.
    rewrite length_seq in H.
    assert (Hf : forall i, length (positionalAt lines i) <= 3).
    { intros i. unfold positionalAt. rewrite !length_app.
      pose proof (when_length_le
                    ((4 <=? length (nth i lines []))
                     && (length (nth i lines []) <=? 15)) (nth i lines [])).
      destruct (i <? length lines - 1); destruct (i <? length lines - 2);
        repeat match goal with
               | |- context [when ?b ?x] =>
                   let Hw := fresh in
                   pose proof (when_length_le b x) as Hw;
                   destruct (when b x)
               end; simpl in *; lia. }
    specialize (H Hf). lia.
  - unfold extractWithBusinessContext.
    pose proof (@flat_map_length_le _ _
                  (fun i =>
                     flat_map (fun j =>
                       contextMatch businessIndicators
                         (join (str " ") (slice i j lines)))
                       (seq (i + 1) (Nat.min (i + 4) (length lines) - i)))
                  4 (seq 0 (length lines))) as H.
    rewrite length_seq in H. apply H. intros i.
    pose proof (@flat_map_length_le _ _
                  (fun j => contextMatch businessIndicators
                              (join (str " ") (slice i j lines)))
                  1 (seq (i + 1) (Nat.min (i + 4) (length lines) - i))) as Hj.
    rewrite length_seq in Hj.
    specialize (Hj (fun j => contextMatch_length _ _)). lia.
  - unfold extractWithPatternMatching.
    pose proof (@flat_map_length_le _ _
                  (fun i =>
                     flat_map (fun j =>
                       patternMatch patterns
                         (join (str " ") (slice i j lines)))
                       (seq (i + 1) (Nat.min (i + 3) (length lines) - i)))
                  3 (seq 0 (length lines - 1))) as H.
    rewrite length_seq in H.
    assert (Hi : forall i,
               length (flat_map (fun j =>
                         patternMatch patterns
                           (join (str " ") (slice i j lines)))
                         (seq (i + 1) (Nat.min (i + 3) (length lines) - i)))
               <= 3).
    { intros i.
      pose proof (@flat_map_length_le _ _
                    (fun j => patternMatch patterns
                                (join (str " ") (slice i j lines)))
                    1 (seq (i + 1) (Nat.min (i + 3) (length lines) - i))) as Hj.
      rewrite length_seq in Hj.
      specialize (Hj (fun j => patternMatch_length _ _)). lia. }
    specialize (H Hi). lia.
Qed.
